(** * Lafit document maker: the template substitution engine of [app.py]

    A shallow embedding of the placeholder scanner, the fuzzy field mapping,
    the run-level text replacement and the per-row driver, with the
    properties the specification states about them. *)

From Stdlib Require Import ZArith NArith Lia Ascii String DecimalString DecimalNat.
From stdpp Require Import base list gmap sets.

Local Open Scope Z_scope.

(** ** Python strings

    A [str] is a sequence of Unicode code points. *)

Definition char := N.
Definition str := list char.

(** Literals of the source, written as Rocq strings of ASCII characters. *)
Definition lit (s : string) : str := List.map N_of_ascii (list_ascii_of_string s).

(** [len(s)] *)
Definition len {A} (s : list A) : Z := Z.of_nat (length s).

(** [s[:k]] and [s[k:]], with Python's reading of a negative bound. *)
Definition slice_to (s : str) (k : Z) : str :=
  if k <? 0 then take (Z.to_nat (Z.max 0 (len s + k))) s else take (Z.to_nat k) s.

Definition slice_from (s : str) (k : Z) : str :=
  if k <? 0 then drop (Z.to_nat (Z.max 0 (len s + k))) s else drop (Z.to_nat k) s.

(** [s.startswith(p)], the test behind [in] and [find]. *)
Fixpoint starts_with (p s : str) : bool :=
  match p, s with
  | [], _ => true
  | _ :: _, [] => false
  | a :: p', b :: s' => (a =? b)%N && starts_with p' s'
  end.

(** [old in full] *)
Fixpoint str_in (old full : str) : bool :=
  starts_with old full ||
  match full with
  | [] => false
  | _ :: rest => str_in old rest
  end.

(** [full.find(old)]: the lowest index of an occurrence, [-1] when there is
    none. [find_from] carries the index of the suffix being examined. *)
Fixpoint find_from (old full : str) (i : Z) : Z :=
  if starts_with old full then i
  else match full with
       | [] => -1
       | _ :: rest => find_from old rest (i + 1)
       end.

Definition str_find (old full : str) : Z := find_from old full 0.

(** ** Runs and paragraphs

    A run is a stretch of text under one formatting identity, which the
    engine never inspects. *)

Record run := Run { text : str; fmt : nat }.

Record paragraph := Paragraph { runs : list run }.

(** *** Assigning [run.text]

    python-docx clears the content of the run and writes the new text
    character by character: a tab becomes a tab element, a newline or a
    carriage return becomes a line break, and the stretches between them
    become text elements. lxml refuses a text element that is not
    XML-compatible with a [ValueError]: a control character other than tab,
    newline and carriage return, a surrogate, U+FFFE or U+FFFF. Reading
    [run.text] afterwards gives a tab for a tab element and a newline for a
    line break. The formatting of the run is kept. *)

Definition tab : char := 9%N.
Definition line_feed : char := 10%N.
Definition carriage_return : char := 13%N.

Definition xml_compatible (c : char) : bool :=
  (c =? tab)%N || (c =? line_feed)%N || (c =? carriage_return)%N
  || ((32 <=? c)%N
      && negb ((55296 <=? c)%N && (c <=? 57343)%N)
      && negb (c =? 65534)%N && negb (c =? 65535)%N).

(** What [run.text] reads after the assignment of [t]; [None] is the
    [ValueError]. *)
Definition stored_text (t : str) : option str :=
  if forallb xml_compatible t
  then Some ((fun c => if (c =? carriage_return)%N then line_feed else c) <$> t)
  else None.

(** [run.text = t] *)
Definition set_text (r : run) (t : str) : option run :=
  (fun t' => {| text := t'; fmt := fmt r |}) <$> stored_text t.

(** [''.join(run.text for run in runs)] *)
Definition get_full_text (rs : list run) : str := concat (List.map text rs).

(** The body of the loop of [replace_text_in_paragraph] for one run that
    starts at [run_start]. *)
Definition replace_in_run (r : run) (run_start start_pos end_pos : Z) (new_text : str)
  : option run :=
  let run_end := run_start + len (text r) in
  if (run_start <? end_pos) && (start_pos <? run_end) then
    let overlap_start := Z.max run_start start_pos in
    let overlap_end := Z.min run_end end_pos in
    let keep_before :=
      if run_start <? overlap_start then slice_to (text r) (overlap_start - run_start) else [] in
    let keep_after :=
      if overlap_end <? run_end then slice_from (text r) (overlap_end - run_start) else [] in
    if (run_start <=? start_pos) && (start_pos <? run_end)
    then set_text r (keep_before ++ new_text ++ keep_after)
    else set_text r (keep_before ++ keep_after)
  else Some r.

(** The loop over [paragraph.runs]; [current_pos] is advanced by the length
    the run had before it was rewritten. The loop stops at the first
    assignment that raises. *)
Fixpoint replace_runs (rs : list run) (current_pos start_pos end_pos : Z) (new_text : str)
  : option (list run) :=
  match rs with
  | [] => Some []
  | r :: rest =>
      let run_start := current_pos in
      let run_end := run_start + len (text r) in
      match replace_in_run r run_start start_pos end_pos new_text with
      | None => None
      | Some r' => cons r' <$> replace_runs rest run_end start_pos end_pos new_text
      end
  end.

(** The paragraph after the call; [None] when an assignment raised. *)
Definition replace_text_in_paragraph (p : paragraph) (old_text new_text : str)
  : option paragraph :=
  let full_text := get_full_text (runs p) in
  if negb (str_in old_text full_text) then Some p
  else
    let start_pos := str_find old_text full_text in
    let end_pos := start_pos + len old_text in
    Paragraph <$> replace_runs (runs p) 0 start_pos end_pos new_text.

(** Offset of run number [i] in the paragraph's text. *)
Definition run_offset (rs : list run) (i : nat) : Z := len (get_full_text (take i rs)).

(** ** Regular expressions

    The two patterns of the source are written with backtracking matchers
    in continuation style: a matcher takes the text at the current position
    and returns the text it matched there. *)

Definition matcher := str -> option str.

Definition m_end : matcher := fun _ => Some [].

(** One character of the class [cls], then [k]. *)
Definition m_char (cls : char -> bool) (k : matcher) : matcher :=
  fun s =>
    match s with
    | c :: t => if cls c then cons c <$> k t else None
    | [] => None
    end.

(** [cls*] then [k]: as many characters as possible, giving one back at a
    time when the rest fails. *)
Fixpoint m_star_greedy (cls : char -> bool) (k : matcher) (s : str) : option str :=
  match s with
  | c :: t =>
      if cls c then
        match m_star_greedy cls k t with
        | Some m => Some (c :: m)
        | None => k s
        end
      else k s
  | [] => k s
  end.

(** [cls*?] then [k]: as few characters as possible. *)
Fixpoint m_star_lazy (cls : char -> bool) (k : matcher) (s : str) : option str :=
  match k s with
  | Some m => Some m
  | None =>
      match s with
      | c :: t => if cls c then cons c <$> m_star_lazy cls k t else None
      | [] => None
      end
  end.

Definition m_alt (m1 m2 : matcher) : matcher :=
  fun s => match m1 s with Some m => Some m | None => m2 s end.

Definition open_brace : char := 123%N.
Definition close_brace : char := 125%N.
Definition newline : char := 10%N.

Definition is_open (c : char) : bool := (c =? open_brace)%N.
Definition is_close (c : char) : bool := (c =? close_brace)%N.
(** [.] matches everything but a newline. *)
Definition dot (c : char) : bool := negb (c =? newline)%N.

(** [\{\{(.+?)\}\}]; the character before the match is not looked at. *)
Definition placeholder_pattern (prev : option char) : matcher :=
  m_char is_open (m_char is_open
    (m_char dot (m_star_lazy dot
      (m_char is_close (m_char is_close m_end))))).

(** [(?<!\{)\{[^}]*\}|[^{]*\}[^{]*]; [prev] is the character before the
    match, for the look-behind. *)
Definition invalid_pattern (prev : option char) : matcher :=
  m_alt
    (fun s =>
       match prev with
       | Some c => if is_open c then None
                   else m_char is_open (m_star_greedy (fun c => negb (is_close c))
                                          (m_char is_close m_end)) s
       | None => m_char is_open (m_star_greedy (fun c => negb (is_close c))
                                   (m_char is_close m_end)) s
       end)
    (m_star_greedy (fun c => negb (is_open c))
       (m_char is_close (m_star_greedy (fun c => negb (is_open c)) m_end))).

(** The scan of [pattern.findall]: leftmost match first, the next search
    starts where the match ended. [skip] counts the characters of the last
    match still to be passed over. Neither pattern matches the empty text,
    so nothing is searched at the end of the text. *)
Fixpoint scan_matches (pat : option char -> matcher) (prev : option char) (skip : nat)
    (s : str) : list str :=
  match s with
  | [] => []
  | c :: t =>
      match skip with
      | S k => scan_matches pat (Some c) k t
      | O =>
          match pat prev s with
          | Some m => m :: scan_matches pat (Some c) (length m - 1) t
          | None => scan_matches pat (Some c) 0 t
          end
      end
  end.

(** [findall] with one group returns the group: here the match without its
    two opening and two closing braces. *)
Definition group1 (m : str) : str := take (length m - 4) (drop 2 m).

Definition findall_placeholders (s : str) : list str :=
  group1 <$> scan_matches placeholder_pattern None 0 s.

(** [findall] without a group returns the matches. *)
Definition findall_invalid (s : str) : list str :=
  scan_matches invalid_pattern None 0 s.

(** ** Documents

    The tree python-docx exposes: a body of paragraphs and tables, a table
    of rows of cells, a cell with its own paragraphs and tables, and a
    header and a footer per section. The paragraphs are objects that the
    engine changes in place, and the tree can reach one object more than
    once: [row.cells] gives a merged cell once for every grid column it
    spans, and the header or footer of a section linked to the previous one
    is the header or footer of that one. So the document has a store of
    paragraph objects, and the tree holds references into it; a paragraph
    reached twice is a reference that appears twice. *)

Definition ref := nat.

Inductive table := Table (rows : list (list cell))
with cell := Cell (cell_paragraphs : list ref) (cell_tables : list table).

Definition table_rows (t : table) : list (list cell) := let 'Table rs := t in rs.
Definition paragraphs_of_cell (c : cell) : list ref := let 'Cell ps _ := c in ps.
Definition tables_of_cell (c : cell) : list table := let 'Cell _ ts := c in ts.

Record doc_section := DocSection { header : list ref; footer : list ref }.

Record document := Document {
  store : list paragraph;
  paragraphs : list ref;
  tables : list table;
  sections : list doc_section
}.

Definition with_store (doc : document) (st : list paragraph) : document :=
  {| store := st; paragraphs := paragraphs doc; tables := tables doc;
     sections := sections doc |}.

(** The traversal the source repeats in [extract_placeholders],
    [find_invalid_braces] and the re-scan of [replace_placeholders]:
    [visit] is applied to every paragraph of the body, then of every cell of
    every row of every table of the body, then of every header and footer,
    and its results are added to the set. A reference outside the store
    stands for no object and is passed over. *)
Definition scan_paragraphs (visit : paragraph -> list str) (st : list paragraph)
    (refs : list ref) (acc : gset str) : gset str :=
  foldl (fun acc r =>
           match st !! r with
           | Some p => acc ∪ list_to_set (visit p)
           | None => acc
           end) acc refs.

Definition scan_document (visit : paragraph -> list str) (doc : document) : gset str :=
  let st := store doc in
  let acc := scan_paragraphs visit st (paragraphs doc) ∅ in
  let acc :=
    foldl (fun acc table =>
      foldl (fun acc row =>
        foldl (fun acc cell => scan_paragraphs visit st (paragraphs_of_cell cell) acc)
          acc row)
        acc (table_rows table))
      acc (tables doc) in
  foldl (fun acc section =>
      scan_paragraphs visit st (footer section)
        (scan_paragraphs visit st (header section) acc))
    acc (sections doc).

Definition extract_placeholders (doc : document) : gset str :=
  scan_document (fun p => findall_placeholders (get_full_text (runs p))) doc.

Definition find_invalid_braces (doc : document) : gset str :=
  scan_document (fun p => findall_invalid (get_full_text (runs p))) doc.

(** ** Normalisation

    [str.isalnum] and [str.lower] read the Unicode tables of the
    interpreter, which are not part of the program: they are parameters.
    [isalnum c] is [str.isalnum] on the one character [c]; [str_lower] is
    [str.lower]. The pattern class [\w] reads the same alphanumeric
    table. *)

Class unicode_tables := UnicodeTables {
  isalnum : char -> bool;
  str_lower : str -> str
}.

Definition normalize_text `{unicode_tables} (text : str) : str :=
  str_lower (List.filter isalnum text).

(** The rows of the tables for Basic Latin and Latin-1 Supplement, and for
    U+0130 (capital I with dot above), whose lower case is the two code
    points U+0069 U+0307; U+0307 is a combining mark, not alphanumeric.
    They serve where a statement is about these code points, and in the
    examples; beyond them this excerpt leaves a code point as it is and
    counts it as not alphanumeric. *)

Definition in_range (lo hi c : N) : bool := ((lo <=? c) && (c <=? hi))%N.

Definition dotted_I : char := 304%N.

Definition excerpt_isalnum (c : char) : bool :=
  in_range 48 57 c || in_range 65 90 c || in_range 97 122 c
  || (c =? 170)%N || in_range 178 179 c || (c =? 181)%N || in_range 185 186 c
  || in_range 188 190 c || in_range 192 214 c || in_range 216 246 c
  || in_range 248 255 c || (c =? dotted_I)%N.

Definition excerpt_lower_char (c : char) : str :=
  if in_range 65 90 c || in_range 192 214 c || in_range 216 222 c then [(c + 32)%N]
  else if (c =? dotted_I)%N then [105%N; 775%N]
  else [c].

Definition excerpt_lower (s : str) : str := s ≫= excerpt_lower_char.

Definition excerpt_tables : unicode_tables :=
  {| isalnum := excerpt_isalnum; str_lower := excerpt_lower |}.

(** The code points of Basic Latin and Latin-1 Supplement. *)
Definition tabulated (c : char) : Prop := (c <= 255)%N.

(** The tables have the rows of the excerpt on these code points. *)
Definition latin1_rows `{unicode_tables} : Prop :=
  (forall c, tabulated c -> isalnum c = excerpt_isalnum c)
  /\ (forall s, Forall tabulated s -> str_lower s = excerpt_lower s).

(** Two facts of the Unicode case mappings: apart from U+0130, the lower
    case of alphanumeric characters is alphanumeric; and a lower-cased text
    is its own lower case. *)
Definition lower_case_stable `{unicode_tables} : Prop :=
  (forall s, dotted_I ∉ s -> Forall (fun c => isalnum c = true) s ->
             Forall (fun c => isalnum c = true) (str_lower s))
  /\ (forall s, str_lower (str_lower s) = str_lower s).

(** ** Dictionaries

    A Python [dict] keeps its keys in insertion order; assigning to a key
    that is present keeps its place. *)

Definition dict (K V : Type) := list (K * V).

Fixpoint dict_get {K V} `{EqDecision K} (d : dict K V) (k : K) : option V :=
  match d with
  | [] => None
  | (k', v) :: rest => if decide (k' = k) then Some v else dict_get rest k
  end.

Fixpoint dict_set {K V} `{EqDecision K} (d : dict K V) (k : K) (v : V) : dict K V :=
  match d with
  | [] => [(k, v)]
  | (k', v') :: rest =>
      if decide (k' = k) then (k, v) :: rest else (k', v') :: dict_set rest k v
  end.

Definition dict_keys {K V} (d : dict K V) : list K := fst <$> d.
Definition dict_values {K V} (d : dict K V) : list V := snd <$> d.

(** [{col: f(col) for col in columns}] *)
Definition dict_comprehension {K V} `{EqDecision K} (f : K -> V) (l : list K) : dict K V :=
  foldl (fun d k => dict_set d k (f k)) [] l.

(** ** Fuzzy matching

    [fuzz.token_sort_ratio], as [process.extractOne] applies it to the query
    and to a choice, belongs to the fuzzywuzzy package: it is the parameter
    [scorer] here. *)

(** [max(best_list, key=lambda i: i[1])]: the first of the largest; nothing
    for an empty list, where Python raises [ValueError]. *)
Definition max_by_score (l : list (str * Z)) : option (str * Z) :=
  match l with
  | [] => None
  | x :: rest => Some (foldl (fun best y => if snd best <? snd y then y else best) x rest)
  end.

(** [process.extractOne(query, choices, scorer=scorer)]: every choice is
    scored, those that reach the cutoff 0 are kept, and the best of them is
    returned; [None] when none is left. *)
Definition extractOne (scorer : str -> str -> Z) (query : str) (choices : list str)
  : option (str * Z) :=
  let score_cutoff := 0 in
  let best_list :=
    List.filter (fun cs => score_cutoff <=? snd cs)
      ((fun choice => (choice, scorer query choice)) <$> choices) in
  max_by_score best_list.

Definition mapping_t := dict str (option str * Z).

(** The first column of [norm_columns.items()] whose normalisation is
    [best_match]. *)
Definition first_column_of (norm_columns : dict str str) (best_match : str) : option str :=
  fst <$> List.find (fun item => bool_decide (snd item = best_match)) norm_columns.

(** One iteration of the loop of [fuzzy_match_placeholders]. [None] is the
    [TypeError] of unpacking the [None] that [extractOne] returned. *)
Definition match_placeholder `{unicode_tables} (scorer : str -> str -> Z) (columns : list str)
    (threshold : Z) (mapping : mapping_t) (placeholder : str) : option mapping_t :=
  let norm_placeholder := normalize_text placeholder in
  let norm_columns := dict_comprehension normalize_text columns in
  match extractOne scorer norm_placeholder (dict_values norm_columns) with
  | None => None
  | Some (best_match, score) =>
      if threshold <=? score then
        match first_column_of norm_columns best_match with
        | Some col => Some (dict_set mapping placeholder (Some col, score))
        | None => Some mapping
        end
      else Some (dict_set mapping placeholder (None, 0))
  end.

Fixpoint match_placeholders_loop `{unicode_tables} (scorer : str -> str -> Z)
    (columns : list str) (threshold : Z) (mapping : mapping_t) (placeholders : list str)
  : option mapping_t :=
  match placeholders with
  | [] => Some mapping
  | placeholder :: rest =>
      match match_placeholder scorer columns threshold mapping placeholder with
      | None => None
      | Some mapping' => match_placeholders_loop scorer columns threshold mapping' rest
      end
  end.

(** [placeholders] is given in the order in which the source iterates it. *)
Definition fuzzy_match_placeholders `{unicode_tables} (scorer : str -> str -> Z)
    (placeholders columns : list str) (threshold : Z) : option mapping_t :=
  match_placeholders_loop scorer columns threshold [] placeholders.

Definition default_threshold : Z := 85.

(** ** Substitution over a document *)

(** A [for] loop whose body changes a state and can raise. *)
Fixpoint for_each {A S} (body : S -> A -> option S) (st : S) (xs : list A) : option S :=
  match xs with
  | [] => Some st
  | x :: rest =>
      match body st x with
      | None => None
      | Some st' => for_each body st' rest
      end
  end.

(** [replace_text_in_paragraph(paragraph, old, new)] on the object that [r]
    refers to. *)
Definition replace_at (old_text new_text : str) (st : list paragraph) (r : ref)
  : option (list paragraph) :=
  match st !! r with
  | Some p =>
      match replace_text_in_paragraph p old_text new_text with
      | Some p' => Some (<[r := p']> st)
      | None => None
      end
  | None => Some st
  end.

(** The three loops inside the loop over the mapping: the paragraphs of the
    body, of the cells of the tables of the body, and of the headers and
    footers. The tables inside a cell are not among them. *)
Definition replace_everywhere (doc : document) (old_text new_text : str)
    (st : list paragraph) : option (list paragraph) :=
  match for_each (replace_at old_text new_text) st (paragraphs doc) with
  | None => None
  | Some st =>
      match
        for_each (fun st table =>
          for_each (fun st row =>
            for_each (fun st cell =>
                for_each (replace_at old_text new_text) st (paragraphs_of_cell cell))
              st row)
            st (table_rows table))
          st (tables doc)
      with
      | None => None
      | Some st =>
          for_each (fun st section =>
              match for_each (replace_at old_text new_text) st (header section) with
              | None => None
              | Some st => for_each (replace_at old_text new_text) st (footer section)
              end)
            st (sections doc)
      end
  end.

(** [if column:] *)
Definition truthy (column : option str) : bool :=
  match column with
  | Some (_ :: _) => true
  | _ => false
  end.

(** [f"{{{{{placeholder}}}}}"] *)
Definition placeholder_text (placeholder : str) : str :=
  [open_brace; open_brace] ++ placeholder ++ [close_brace; close_brace].

(** The first loop of [replace_placeholders], over [mapping.items()], on the
    store. [data] maps a column to the text [str] gives for its value;
    [None] is the [KeyError] of [data[column]] or the [ValueError] of an
    assignment. *)
Fixpoint substitute_store (doc : document) (data : dict str str) (mapping : mapping_t)
    (st : list paragraph) : option (list paragraph) :=
  match mapping with
  | [] => Some st
  | (placeholder, (column, _)) :: rest =>
      if truthy column then
        match column ≫= dict_get data with
        | None => None
        | Some value =>
            match replace_everywhere doc (placeholder_text placeholder) value st with
            | None => None
            | Some st' => substitute_store doc data rest st'
            end
        end
      else substitute_store doc data rest st
  end.

Definition substitute_all (doc : document) (data : dict str str) (mapping : mapping_t)
  : option document :=
  with_store doc <$> substitute_store doc data mapping (store doc).

Definition replace_placeholders (doc : document) (data : dict str str) (mapping : mapping_t)
  : option (document * gset str) :=
  match substitute_all doc data mapping with
  | None => None
  | Some doc' =>
      let unreplaced :=
        scan_document (fun p => findall_placeholders (get_full_text (runs p))) doc' in
      Some (doc', unreplaced)
  end.

(** ** The batch *)

Record dataframe := DataFrame {
  columns : list str;
  rows : list (dict str str)
}.

Record row_result := RowResult {
  output : document;
  replaced_placeholders : gset str;
  unreplaced : gset str;
  unused_columns : gset str;
  invalid_braces : gset str;
  row_data : dict str str
}.

(** [{mapping[p][0] for p in replaced_placeholders if mapping[p][0]}]; every
    [p] of [replaced_placeholders] is a key of the mapping. *)
Definition used_columns_of (mapping : mapping_t) (replaced : gset str) : gset str :=
  list_to_set
    (omap (fun p =>
             match dict_get mapping p with
             | Some (Some col, _) => if truthy (Some col) then Some col else None
             | _ => None
             end)
          (elements replaced)).

(** The body of the loop of [generate_documents] for one row;
    [Document(template)] reads the template anew. *)
Definition generate_document (df : dataframe) (template : document) (mapping : mapping_t)
    (row : dict str str) : option row_result :=
  let temp_doc := template in
  let data := row in
  match replace_placeholders temp_doc data mapping with
  | None => None
  | Some (temp_doc, unreplaced) =>
      let replaced_placeholders := list_to_set (dict_keys mapping) ∖ unreplaced in
      let used_columns := used_columns_of mapping replaced_placeholders in
      let unused_columns := list_to_set (columns df) ∖ used_columns in
      let invalid_braces := find_invalid_braces temp_doc in
      Some (RowResult temp_doc replaced_placeholders unreplaced unused_columns
              invalid_braces row)
  end.

Fixpoint generate_rows (df : dataframe) (template : document) (mapping : mapping_t)
    (rs : list (dict str str)) : option (list row_result) :=
  match rs with
  | [] => Some []
  | row :: rest =>
      match generate_document df template mapping row with
      | None => None
      | Some r => cons r <$> generate_rows df template mapping rest
      end
  end.

Definition generate_documents (df : dataframe) (template : document) (mapping : mapping_t)
  : option (list row_result) :=
  generate_rows df template mapping (rows df).

(** ** File names *)

(** [pattern.sub(repl, s)]: the scan of [scan_matches], with every match
    replaced by [repl] and the characters between matches kept. *)
Fixpoint sub_matches (pat : option char -> matcher) (repl : str) (prev : option char)
    (skip : nat) (s : str) : str :=
  match s with
  | [] => []
  | c :: t =>
      match skip with
      | S k => sub_matches pat repl (Some c) k t
      | O =>
          match pat prev s with
          | Some m => repl ++ sub_matches pat repl (Some c) (length m - 1) t
          | None => c :: sub_matches pat repl (Some c) 0 t
          end
      end
  end.

Definition underscore : char := 95%N.
Definition hyphen : char := 45%N.
Definition full_stop : char := 46%N.

(** [\w] on text: an alphanumeric character or the underscore. *)
Definition word_char `{unicode_tables} (c : char) : bool := isalnum c || (c =? underscore)%N.

(** [[^\w\-_\.]] *)
Definition unsafe_char `{unicode_tables} (c : char) : bool :=
  negb (word_char c || (c =? hyphen)%N || (c =? underscore)%N || (c =? full_stop)%N).

Definition sanitize_pattern `{unicode_tables} (prev : option char) : matcher :=
  m_char unsafe_char m_end.

(** [name] is the text [str] gives for the value. *)
Definition sanitize_filename `{unicode_tables} (name : str) : str :=
  sub_matches sanitize_pattern [underscore] None 0 name.

(** [str(n)] for a number that is not negative. *)
Definition str_of_nat (n : nat) : str := lit (NilEmpty.string_of_uint (Nat.to_uint n)).

(** [row.get(key, default)] *)
Definition row_get (row : dict str str) (key default_value : str) : str :=
  default default_value (dict_get row key).

(** The name [main] gives to the document of row number [idx] in the ZIP
    file. *)
Definition zip_filename `{unicode_tables} (row : dict str str) (idx : nat) : str :=
  let product_name := sanitize_filename (row_get row (lit "Product Name") (lit "unknown")) in
  let product_code := sanitize_filename (row_get row (lit "Product Code") (lit "unknown")) in
  product_name ++ lit "_" ++ product_code ++ lit "_row_" ++ str_of_nat (idx + 1) ++ lit ".docx".

(** The name [main] shows in the report of the row and gives to its
    download button. *)
Definition report_filename `{unicode_tables} (row : dict str str) (idx : nat) : str :=
  let product_name := row_get row (lit "Product Name") (lit "Not found") in
  let product_code := row_get row (lit "Product Code") (lit "Not found") in
  sanitize_filename product_name ++ lit "_" ++ sanitize_filename product_code
    ++ lit "_row_" ++ str_of_nat (idx + 1) ++ lit ".docx".

(** ** Vocabulary of the statements *)

(** [target] occurs in [A ++ target ++ B] after [A], and nowhere earlier. *)
Definition first_occurrence (A target B : str) : Prop :=
  forall A' B', A' ++ target ++ B' = A ++ target ++ B -> (length A <= length A')%nat.

Definition occurs_in (target full : str) : Prop :=
  exists A B, full = A ++ target ++ B.

(** The text [T] with the characters at the offsets [a <= i < b] removed and
    [R] put in their place when offset [a] lies in [T]. *)
Definition splice_at (T : str) (a b : Z) (R : str) : str :=
  take (Z.to_nat a) T ++ (if (0 <=? a) && (a <? len T) then R else []) ++ drop (Z.to_nat b) T.

(** The text of a paragraph. *)
Definition paragraph_text (p : paragraph) : str := get_full_text (runs p).

(** A text that the assignment of [run.text] stores as it is: its
    characters are XML-compatible and none is a carriage return. *)
Definition plain_char (c : char) : bool := xml_compatible c && negb (c =? carriage_return)%N.
Definition plain (t : str) : Prop := forallb plain_char t = true.
Definition plain_paragraph (p : paragraph) : Prop := plain (paragraph_text p).
Definition plain_document (doc : document) : Prop := Forall plain_paragraph (store doc).

(** [s.replace(old, new, 1)] on the text itself. *)
Fixpoint replace_once (old new s : str) : str :=
  if starts_with old s then new ++ drop (length old) s
  else match s with
       | [] => []
       | c :: t => c :: replace_once old new t
       end.

(** The formatting identities of the runs of a paragraph, in order. *)
Definition formats_of (p : paragraph) : list nat := fmt <$> runs p.

(** The references the traversal of the source reaches, in its order, each
    as often as it is reached. *)
Definition visited_refs (doc : document) : list ref :=
  paragraphs doc
  ++ (tables doc ≫= fun t => table_rows t ≫= fun row : list cell => row ≫= paragraphs_of_cell)
  ++ (sections doc ≫= fun s => header s ++ footer s).

(** The paragraphs the traversal reads. *)
Definition visited_paragraphs (doc : document) : list paragraph :=
  omap (fun r => store doc !! r) (visited_refs doc).

(** How often the traversal reaches the object of [r]. *)
Definition visits (doc : document) (r : ref) : nat := count_occ Nat.eq_dec (visited_refs doc) r.

(** [n] calls of [replace_text_in_paragraph] on the same paragraph. *)
Fixpoint repeat_replace (n : nat) (p : paragraph) (old_text new_text : str)
  : option paragraph :=
  match n with
  | O => Some p
  | S k =>
      match replace_text_in_paragraph p old_text new_text with
      | None => None
      | Some p' => repeat_replace k p' old_text new_text
      end
  end.

(** What the first loop of [replace_placeholders] does to a paragraph that
    the traversal reaches [n] times: for each entry of the mapping with a
    column, in the order of the mapping, [n] replacements. *)
Fixpoint substitute_paragraph (data : dict str str) (mapping : mapping_t) (n : nat)
    (p : paragraph) : option paragraph :=
  match mapping with
  | [] => Some p
  | (placeholder, (column, _)) :: rest =>
      if truthy column then
        match column ≫= dict_get data with
        | None => None
        | Some value =>
            match repeat_replace n p (placeholder_text placeholder) value with
            | None => None
            | Some p' => substitute_paragraph data rest n p'
            end
        end
      else substitute_paragraph data rest n p
  end.

(** Documents of body paragraphs of one run each, every paragraph reached
    once, for the examples. *)
Definition plain_run (s : string) : paragraph := Paragraph [Run (lit s) 0].
Definition body_only (ps : list paragraph) : document :=
  Document ps (seq 0 (length ps)) [] [].

(** Every reference of the document tree, the tables inside cells
    included. *)
Fixpoint table_all_refs (t : table) : list ref :=
  match t with
  | Table rs => concat (List.map (fun row => concat (List.map cell_all_refs row)) rs)
  end
with cell_all_refs (c : cell) : list ref :=
  match c with
  | Cell ps ts => ps ++ concat (List.map table_all_refs ts)
  end.

Definition reachable_refs (doc : document) : list ref :=
  paragraphs doc
  ++ concat (List.map table_all_refs (tables doc))
  ++ (sections doc ≫= fun s => header s ++ footer s).

(** A token name that the pattern reads as written: not empty, without
    braces and without a newline. *)
Definition plain_name (name : str) : Prop :=
  name <> []
  /\ Forall (fun c => c <> open_brace /\ c <> close_brace /\ c <> newline) name.

(** A template text: a stretch without opening brace, then markers, each
    followed by a stretch without opening brace. *)
Definition template_text (before : str) (segments : list (str * str)) : str :=
  before ++ (segments ≫= fun seg => placeholder_text (fst seg) ++ snd seg).

Definition brace_free (s : str) : Prop := Forall (fun c => c <> open_brace) s.

(** The row has a value for every column the mapping uses. *)
Definition row_covers (data : dict str str) (mapping : mapping_t) : Prop :=
  forall t c sc, (t, (Some c, sc)) ∈ mapping -> c <> [] -> is_Some (dict_get data c).

(** The values the row has for the columns of the mapping are plain. *)
Definition plain_values (data : dict str str) (mapping : mapping_t) : Prop :=
  forall t c sc v, (t, (Some c, sc)) ∈ mapping -> dict_get data c = Some v -> plain v.

(** An entry of the mapping has a column for which the row has no value. *)
Definition missing_value (data : dict str str) (mapping : mapping_t) : Prop :=
  exists t c sc, (t, (Some c, sc)) ∈ mapping /\ c <> [] /\ dict_get data c = None.

(** No marker of an entry of [mapping] with a column occurs in [s]. *)
Definition markers_absent (mapping : mapping_t) (s : str) : Prop :=
  forall t c sc, (t, (c, sc)) ∈ mapping -> truthy c = true ->
                 ~ occurs_in (placeholder_text t) s.

(** A scorer for the examples: 100 for equal texts, 0 otherwise. *)
Definition exact_scorer (a b : str) : Z := if decide (a = b) then 100 else 0.

(** What the entry [e] of the mapping for the placeholder [p] has to be: a
    column [best] scores highest among the normalised columns; below the
    threshold the entry is [(None, 0)], otherwise it is a column of the same
    normalisation as [best], with that score. *)
Definition match_entry_ok `{unicode_tables} (scorer : str -> str -> Z) (columns : list str)
    (threshold : Z) (p : str) (e : option str * Z) : Prop :=
  exists best, best ∈ columns
    /\ (forall c, c ∈ columns ->
          scorer (normalize_text p) (normalize_text c)
          <= scorer (normalize_text p) (normalize_text best))
    /\ let score := scorer (normalize_text p) (normalize_text best) in
       (score < threshold -> e = (None, 0))
       /\ (threshold <= score ->
           exists c, c ∈ columns /\ normalize_text c = normalize_text best
                     /\ e = (Some c, score)).

(** An entry as [fuzzy_match_placeholders] writes them: no column and the
    score 0, or a column of the table with a score that reaches the
    threshold. *)
Definition entry_well_formed (columns : list str) (threshold : Z) (e : option str * Z)
  : Prop :=
  e = (None, 0) \/ exists col, fst e = Some col /\ col ∈ columns /\ threshold <= snd e.

(** A character of a normalised text, by the rows of the excerpt:
    alphanumeric, and its own lower case. *)
Definition normal_char (c : char) : bool :=
  excerpt_isalnum c && bool_decide (excerpt_lower_char c = [c]).

Definition is_digit (c : char) : bool := in_range 48 57 c.

(** * Properties *)

(** ** Searching a text *)

Lemma starts_with_spec (p s : str) :
  starts_with p s = true <-> exists r, s = p ++ r.
Proof.
  revert s; induction p as [|a p IH]; intros s; simpl.
  - split; [intros _; exists s; reflexivity | reflexivity].
  - destruct s as [|b s].
    + split; [discriminate | intros [r Hr]; discriminate].
    + rewrite andb_true_iff, N.eqb_eq, IH. split.
      * intros [-> [r ->]]. exists r. reflexivity.
      * intros [r Hr]. injection Hr as -> ->. split; [reflexivity | exists r; reflexivity].
Qed.

Lemma str_in_spec (old full : str) :
  str_in old full = true <-> occurs_in old full.
Proof.
  unfold occurs_in. induction full as [|c full IH]; simpl.
  - rewrite orb_false_r, starts_with_spec. split.
    + intros [r Hr]. exists [], r. exact Hr.
    + intros (A & B & H). destruct A; [exists B; exact H | discriminate].
  - rewrite orb_true_iff, starts_with_spec, IH. split.
    + intros [[r Hr] | (A & B & H)].
      * exists [], r. exact Hr.
      * exists (c :: A), B. simpl. congruence.
    + intros (A & B & H). destruct A as [|a A].
      * left. exists B. exact H.
      * right. injection H as _ H. exists A, B. exact H.
Qed.

Lemma find_from_spec (old full : str) (i : Z) :
  str_in old full = true ->
  exists A B, full = A ++ old ++ B /\ find_from old full i = i + len A
              /\ forall A' B', full = A' ++ old ++ B' -> (length A <= length A')%nat.
Proof.
  revert i; induction full as [|c full IH]; intros i; simpl.
  - rewrite orb_false_r. intros H. rewrite H.
    apply starts_with_spec in H as [r Hr]. exists [], r.
    split; [exact Hr | split; [unfold len; simpl; lia | intros; simpl; lia]].
  - destruct (starts_with old (c :: full)) eqn:Hs; simpl.
    + intros _. apply starts_with_spec in Hs as [r Hr]. exists [], r.
      split; [exact Hr | split; [unfold len; simpl; lia | intros; simpl; lia]].
    + intros H. destruct (IH (i + 1) H) as (A & B & Hf & Hi & Hmin).
      exists (c :: A), B. split; [simpl; congruence|]. split.
      * rewrite Hi. unfold len. simpl length. lia.
      * intros A' B' H'. destruct A' as [|a A'].
        -- assert (starts_with old (c :: full) = true) as Hc
             by (apply starts_with_spec; exists B'; exact H').
           congruence.
        -- injection H' as _ H'. specialize (Hmin _ _ H'). simpl. lia.
Qed.

Lemma str_find_first (A target B : str) :
  first_occurrence A target B -> str_find target (A ++ target ++ B) = len A.
Proof.
  intros Hfirst. unfold str_find.
  assert (str_in target (A ++ target ++ B) = true) as Hin
    by (apply str_in_spec; exists A, B; reflexivity).
  destruct (find_from_spec target _ 0 Hin) as (A0 & B0 & Heq & Hfind & Hmin).
  rewrite Hfind. pose proof (Hmin A B eq_refl). pose proof (Hfirst A0 B0 (eq_sym Heq)).
  unfold len. lia.
Qed.

(** ** Replacement inside one paragraph *)

Lemma len_app {A} (s t : list A) : len (s ++ t) = len s + len t.
Proof. unfold len. rewrite length_app. lia. Qed.

Lemma len_nonneg {A} (s : list A) : 0 <= len s.
Proof. unfold len. lia. Qed.

Lemma splice_at_app (T1 T2 : str) (a b : Z) (R : str) :
  a < b ->
  splice_at (T1 ++ T2) a b R
  = splice_at T1 a b R ++ splice_at T2 (a - len T1) (b - len T1) R.
Proof.
  intros Hab. unfold splice_at. rewrite len_app, take_app, drop_app.
  pose proof (len_nonneg T1) as H1. pose proof (len_nonneg T2) as H2.
  replace (Z.to_nat (a - len T1)) with (Z.to_nat a - length T1)%nat by (unfold len; lia).
  replace (Z.to_nat (b - len T1)) with (Z.to_nat b - length T1)%nat by (unfold len; lia).
  destruct (Z.ltb_spec a 0) as [Ha|Ha].
  - replace (0 <=? a) with false by (symmetry; apply Z.leb_gt; lia).
    replace (0 <=? a - len T1) with false by (symmetry; apply Z.leb_gt; lia).
    replace (Z.to_nat a) with 0%nat by lia. simpl. rewrite ?take_0. reflexivity.
  - destruct (Z.ltb_spec a (len T1)) as [Ha1|Ha1].
    + replace (0 <=? a) with true by (symmetry; apply Z.leb_le; lia).
      replace (a <? len T1 + len T2) with true by (symmetry; apply Z.ltb_lt; lia).
      replace (0 <=? a - len T1) with false by (symmetry; apply Z.leb_gt; lia).
      replace (Z.to_nat a - length T1)%nat with 0%nat by (unfold len in *; lia).
      simpl. rewrite ?take_0. simpl. rewrite <- ?app_assoc. reflexivity.
    + replace (0 <=? a) with true by (symmetry; apply Z.leb_le; lia).
      replace (0 <=? a - len T1) with true by (symmetry; apply Z.leb_le; lia).
      replace (a - len T1 <? len T2) with (a <? len T1 + len T2)
        by (destruct (Z.ltb_spec a (len T1 + len T2));
            symmetry; [apply Z.ltb_lt | apply Z.ltb_ge]; lia).
      rewrite (drop_ge T1) by (unfold len in *; lia).
      simpl. rewrite <- ?app_assoc. reflexivity.
Qed.

(** *** Texts that are stored as they are *)

Lemma plain_Forall (t : str) : plain t <-> Forall (fun c => plain_char c = true) t.
Proof.
  unfold plain. rewrite forallb_forall, Forall_forall.
  split; intros H c Hc; apply H; apply list_elem_of_In; exact Hc.
Qed.

Lemma plain_app (s t : str) : plain (s ++ t) <-> plain s /\ plain t.
Proof. rewrite !plain_Forall. apply Forall_app. Qed.

Lemma plain_take (n : nat) (t : str) : plain t -> plain (take n t).
Proof. rewrite !plain_Forall. apply Forall_take. Qed.

Lemma plain_drop (n : nat) (t : str) : plain t -> plain (drop n t).
Proof. rewrite !plain_Forall. apply Forall_drop. Qed.

Lemma plain_nil : plain [].
Proof. reflexivity. Qed.

Lemma plain_stored (t : str) : plain t -> stored_text t = Some t.
Proof.
  intros Ht. unfold stored_text.
  assert (forallb xml_compatible t = true) as ->.
  { apply forallb_forall. intros c Hc. unfold plain in Ht. rewrite forallb_forall in Ht.
    specialize (Ht c Hc). unfold plain_char in Ht. apply andb_true_iff in Ht as [Ht _].
    exact Ht. }
  f_equal. apply plain_Forall in Ht.
  induction Ht as [|c t Hc _ IH]; [reflexivity|].
  rewrite fmap_cons, IH. f_equal.
  unfold plain_char in Hc. apply andb_true_iff in Hc as [_ Hc].
  destruct (c =? carriage_return)%N; [discriminate | reflexivity].
Qed.

Lemma set_text_plain (r : run) (t : str) :
  plain t -> set_text r t = Some {| text := t; fmt := fmt r |}.
Proof. intros Ht. unfold set_text. rewrite (plain_stored t Ht). reflexivity. Qed.

Lemma set_text_fmt (r r' : run) (t : str) : set_text r t = Some r' -> fmt r' = fmt r.
Proof.
  unfold set_text. destruct (stored_text t); [|discriminate]. intros [= <-]. reflexivity.
Qed.

Lemma plain_splice_at (T R : str) (a b : Z) : plain T -> plain R -> plain (splice_at T a b R).
Proof.
  intros HT HR. unfold splice_at. apply plain_app. split; [apply plain_take, HT|].
  apply plain_app. split; [|apply plain_drop, HT].
  destruct ((0 <=? a) && (a <? len T)); [exact HR | exact plain_nil].
Qed.

Lemma plain_full_text (rs : list run) :
  plain (get_full_text rs) <-> Forall (fun r => plain (text r)) rs.
Proof.
  induction rs as [|r rs IH]; [split; [constructor | reflexivity]|].
  change (get_full_text (r :: rs)) with (text r ++ get_full_text rs).
  rewrite plain_app, IH, Forall_cons. reflexivity.
Qed.

(** *** The loop over the runs *)

(** What the loop body does to one run, in one formula: a run that the
    match overlaps is assigned what it had before and after the match, with
    the new text in between when the match starts in it. *)
Lemma replace_in_run_spec (r : run) (run_start s e : Z) (R : str) :
  s < e ->
  replace_in_run r run_start s e R
  = if (run_start <? e) && (s <? run_start + len (text r))
    then set_text r (splice_at (text r) (s - run_start) (e - run_start) R)
    else Some r.
Proof.
  intros Hse. unfold replace_in_run, splice_at, slice_to, slice_from.
  pose proof (len_nonneg (text r)) as Hl.
  destruct r as [t f]; simpl in *.
  repeat match goal with
         | |- context [?a <? ?b] => destruct (Z.ltb_spec a b)
         | |- context [?a <=? ?b] => destruct (Z.leb_spec a b)
         end; simpl; try lia; try reflexivity; f_equal;
    repeat match goal with
           | |- context [take ?n t] =>
               first [ rewrite (take_ge t n) by (unfold len in *; lia)
                     | replace n with 0%nat by lia; rewrite take_0 ]
           | |- context [drop ?n t] =>
               first [ rewrite (drop_ge t n) by (unfold len in *; lia)
                     | replace n with 0%nat by lia; rewrite drop_0 ]
           end;
    rewrite ?app_nil_r; simpl;
    try reflexivity;
    repeat (f_equal; try lia).
Qed.

(** Outside the match the formula gives the text back. *)
Lemma splice_at_outside (t : str) (run_start s e : Z) (R : str) :
  s < e ->
  (run_start <? e) && (s <? run_start + len t) = false ->
  splice_at t (s - run_start) (e - run_start) R = t.
Proof.
  intros Hse Hout. unfold splice_at. pose proof (len_nonneg t).
  apply andb_false_iff in Hout as [Hout | Hout].
  - apply Z.ltb_ge in Hout.
    replace (0 <=? s - run_start) with false by (symmetry; apply Z.leb_gt; lia).
    replace (Z.to_nat (s - run_start)) with 0%nat by lia.
    replace (Z.to_nat (e - run_start)) with 0%nat by lia.
    reflexivity.
  - apply Z.ltb_ge in Hout.
    rewrite take_ge, drop_ge by (unfold len in *; lia).
    replace (s - run_start <? len t) with false by (symmetry; apply Z.ltb_ge; lia).
    rewrite andb_false_r, app_nil_r. reflexivity.
Qed.

Lemma replace_in_run_plain (r : run) (run_start s e : Z) (R : str) :
  s < e -> plain (text r) -> plain R ->
  replace_in_run r run_start s e R
  = Some {| text := splice_at (text r) (s - run_start) (e - run_start) R; fmt := fmt r |}.
Proof.
  intros Hse Hr HR. rewrite replace_in_run_spec by exact Hse.
  destruct ((run_start <? e) && (s <? run_start + len (text r))) eqn:Hov.
  - apply set_text_plain, plain_splice_at; assumption.
  - rewrite (splice_at_outside _ _ _ _ _ Hse Hov). destruct r. reflexivity.
Qed.

Lemma replace_in_run_fmt (r r' : run) (run_start s e : Z) (R : str) :
  replace_in_run r run_start s e R = Some r' -> fmt r' = fmt r.
Proof.
  unfold replace_in_run.
  destruct ((run_start <? e) && (s <? run_start + len (text r))); [|intros [= <-]; reflexivity].
  destruct ((run_start <=? s) && (s <? run_start + len (text r))); apply set_text_fmt.
Qed.

Lemma get_full_text_cons (r : run) (rs : list run) :
  get_full_text (r :: rs) = text r ++ get_full_text rs.
Proof. reflexivity. Qed.

Lemma run_offset_cons (r : run) (rs : list run) (i : nat) :
  run_offset (r :: rs) (S i) = len (text r) + run_offset rs i.
Proof. unfold run_offset. simpl. rewrite get_full_text_cons, len_app. reflexivity. Qed.

Lemma replace_runs_fmt (rs rs' : list run) (pos s e : Z) (R : str) :
  replace_runs rs pos s e R = Some rs' -> fmt <$> rs' = fmt <$> rs.
Proof.
  revert pos rs'; induction rs as [|r rs IH]; intros pos rs'; simpl.
  - intros [= <-]. reflexivity.
  - destruct (replace_in_run r pos s e R) as [r'|] eqn:Hr; [|discriminate].
    destruct (replace_runs rs (pos + len (text r)) s e R) as [rest|] eqn:Hrest; [|discriminate].
    intros [= <-]. rewrite !fmap_cons, (IH _ _ Hrest), (replace_in_run_fmt _ _ _ _ _ _ Hr).
    reflexivity.
Qed.

(** On plain texts the loop returns; run number [i] is rewritten at its own
    offset, and the text of the paragraph is spliced. *)
Lemma replace_runs_plain (rs : list run) (pos s e : Z) (R : str) :
  s < e -> Forall (fun r => plain (text r)) rs -> plain R ->
  exists rs',
    replace_runs rs pos s e R = Some rs'
    /\ length rs' = length rs
    /\ get_full_text rs' = splice_at (get_full_text rs) (s - pos) (e - pos) R
    /\ forall i r, rs !! i = Some r ->
         rs' !! i = Some {| text := splice_at (text r) (s - (pos + run_offset rs i))
                                      (e - (pos + run_offset rs i)) R;
                            fmt := fmt r |}.
Proof.
  intros Hse Hrs HR. revert pos; induction Hrs as [|r rs Hr Hrs IH]; intros pos.
  - exists []. split; [reflexivity|]. split; [reflexivity|]. split; [|intros i r Hi; discriminate].
    unfold splice_at. change (get_full_text []) with (@nil char).
    rewrite take_nil, drop_nil. unfold len. simpl length. change (Z.of_nat 0) with 0.
    destruct (Z.leb_spec 0 (s - pos)), (Z.ltb_spec (s - pos) 0); try reflexivity; lia.
  - destruct (IH (pos + len (text r))) as (rest & Hrest & Hlen & Htext & Hlook).
    simpl replace_runs. rewrite (replace_in_run_plain r pos s e R Hse Hr HR), Hrest.
    eexists. split; [reflexivity|]. split; [simpl; rewrite Hlen; reflexivity|]. split.
    + rewrite !get_full_text_cons, Htext, splice_at_app by lia. simpl.
      do 2 f_equal; lia.
    + intros [|i] r0 Hi; simpl in *.
      * injection Hi as <-. unfold run_offset, len. simpl. do 3 f_equal; lia.
      * rewrite (Hlook _ _ Hi), run_offset_cons. do 3 f_equal; lia.
Qed.

(** A match that ends at or before [pos] touches no run from [pos] on. *)
Lemma replace_runs_behind (rs : list run) (pos s e : Z) (R : str) :
  e <= pos -> replace_runs rs pos s e R = Some rs.
Proof.
  revert pos; induction rs as [|r rs IH]; intros pos Hpos; [reflexivity|].
  simpl. rewrite IH by (pose proof (len_nonneg (text r)); lia).
  unfold replace_in_run.
  replace (pos <? e) with false by (symmetry; apply Z.ltb_ge; lia). reflexivity.
Qed.

(** Every offset of the text lies in exactly one run. *)
Lemma run_at_offset (rs : list run) (k : Z) :
  0 <= k < len (get_full_text rs) ->
  exists i r, rs !! i = Some r /\ run_offset rs i <= k < run_offset rs i + len (text r).
Proof.
  revert k; induction rs as [|r0 rs IH]; intros k Hk.
  - unfold len in Hk. simpl in Hk. lia.
  - rewrite get_full_text_cons, len_app in Hk.
    destruct (Z.ltb_spec k (len (text r0))) as [Hlt|Hge].
    + exists 0%nat, r0. unfold run_offset, len in *. simpl. split; [reflexivity | lia].
    + destruct (IH (k - len (text r0))) as (i & r & Hi & Hr); [lia|].
      exists (S i), r. rewrite run_offset_cons. split; [exact Hi | lia].
Qed.

Lemma splice_at_decomposition (A target B R : str) :
  target <> [] ->
  splice_at (A ++ target ++ B) (len A) (len A + len target) R = A ++ R ++ B.
Proof.
  intros Hne. unfold splice_at.
  assert (0 < len target) by (destruct target; [congruence | unfold len; simpl; lia]).
  pose proof (len_nonneg A). pose proof (len_nonneg B).
  replace (0 <=? len A) with true by (symmetry; apply Z.leb_le; lia).
  replace (len A <? len (A ++ target ++ B)) with true
    by (symmetry; apply Z.ltb_lt; rewrite !len_app; lia).
  simpl. f_equal; [|f_equal].
  - unfold len. rewrite Nat2Z.id, take_app_length. reflexivity.
  - rewrite app_assoc. replace (Z.to_nat (len A + len target)) with (length (A ++ target))
      by (rewrite length_app; unfold len; lia).
    apply drop_app_length.
Qed.

Lemma len_pos_of_nonempty (target : str) : target <> [] -> 0 < len target.
Proof. destruct target; [congruence | unfold len; simpl; lia]. Qed.

(** With the match found after [A], the call is the loop run with the
    offsets [len A] and [len A + len target]. *)
Lemma replace_text_unfold (p : paragraph) (A target B R : str) :
  paragraph_text p = A ++ target ++ B ->
  first_occurrence A target B ->
  replace_text_in_paragraph p target R
  = Paragraph <$> replace_runs (runs p) 0 (len A) (len A + len target) R.
Proof.
  unfold paragraph_text. intros Hfull Hfirst. unfold replace_text_in_paragraph.
  assert (str_in target (get_full_text (runs p)) = true) as ->
    by (apply str_in_spec; exists A, B; exact Hfull).
  simpl. rewrite Hfull, (str_find_first _ _ _ Hfirst). reflexivity.
Qed.

Lemma replace_text_first (p : paragraph) (A target B R : str) :
  target <> [] ->
  paragraph_text p = A ++ target ++ B ->
  first_occurrence A target B ->
  plain_paragraph p -> plain R ->
  exists p', replace_text_in_paragraph p target R = Some p'
             /\ paragraph_text p' = A ++ R ++ B.
Proof.
  intros Hne Hfull Hfirst Hp HR. rewrite (replace_text_unfold p A target B R Hfull Hfirst).
  pose proof (len_pos_of_nonempty target Hne).
  destruct (replace_runs_plain (runs p) 0 (len A) (len A + len target) R)
    as (rs' & -> & _ & Htext & _); [lia | apply plain_full_text, Hp | exact HR |].
  eexists. split; [reflexivity|]. unfold paragraph_text in *. simpl runs.
  rewrite Htext, Hfull, !Z.sub_0_r. apply splice_at_decomposition. exact Hne.
Qed.

Lemma replace_text_noop (p : paragraph) (target R : str) :
  ~ occurs_in target (paragraph_text p) ->
  replace_text_in_paragraph p target R = Some p.
Proof.
  intros Habsent. unfold replace_text_in_paragraph.
  destruct (str_in target (get_full_text (runs p))) eqn:Hin; [|reflexivity].
  exfalso. apply Habsent, str_in_spec. exact Hin.
Qed.

Lemma replace_text_formats (p p' : paragraph) (old_text new_text : str) :
  replace_text_in_paragraph p old_text new_text = Some p' -> formats_of p' = formats_of p.
Proof.
  unfold formats_of, replace_text_in_paragraph.
  destruct (negb (str_in old_text (get_full_text (runs p)))); [intros [= <-]; reflexivity|].
  destruct (replace_runs _ _ _ _ _) as [rs'|] eqn:Hrs; [|discriminate].
  intros [= <-]. exact (replace_runs_fmt _ _ _ _ _ _ Hrs).
Qed.

Lemma replace_text_empty_target (p : paragraph) (new_text : str) :
  replace_text_in_paragraph p [] new_text = Some p.
Proof.
  unfold replace_text_in_paragraph, str_find.
  assert (forall s, str_in [] s = true) as -> by (intros [|c s]; reflexivity).
  assert (forall s, find_from [] s 0 = 0) as -> by (intros [|c s]; reflexivity).
  simpl. rewrite replace_runs_behind by (unfold len; simpl; lia).
  destruct p. reflexivity.
Qed.

Lemma first_occurrence_by_find (A target B : str) :
  str_find target (A ++ target ++ B) = len A -> first_occurrence A target B.
Proof.
  intros Hfind A' B' Heq. unfold str_find in Hfind.
  assert (str_in target (A ++ target ++ B) = true) as Hin
    by (apply str_in_spec; exists A, B; reflexivity).
  destruct (find_from_spec target _ 0 Hin) as (A0 & B0 & _ & Hf & Hmin).
  specialize (Hmin A' B' (eq_sym Heq)). rewrite Hf in Hfind. unfold len in Hfind. lia.
Qed.

Lemma absent_by_str_in (target full : str) :
  str_in target full = false -> ~ occurs_in target full.
Proof. intros H Hocc. apply str_in_spec in Hocc. congruence. Qed.

Lemma replace_once_absent (old new s : str) :
  str_in old s = false -> replace_once old new s = s.
Proof.
  induction s as [|c s IH]; simpl.
  - destruct (starts_with old []); [discriminate | reflexivity].
  - destruct (starts_with old (c :: s)); [discriminate|]. simpl.
    intros H. rewrite (IH H). reflexivity.
Qed.

Lemma first_occurrence_tail (a : char) (A target B : str) :
  first_occurrence (a :: A) target B -> first_occurrence A target B.
Proof.
  intros H A' B' Heq. specialize (H (a :: A') B'). simpl in H.
  rewrite Heq in H. specialize (H eq_refl). lia.
Qed.

Lemma replace_once_first (A target B new : str) :
  target <> [] ->
  first_occurrence A target B ->
  replace_once target new (A ++ target ++ B) = A ++ new ++ B.
Proof.
  intros Hne. induction A as [|a A IH]; intros Hfirst.
  - simpl app. destruct target as [|t0 target]; [congruence|].
    simpl replace_once.
    assert (starts_with (t0 :: target) ((t0 :: target) ++ B) = true) as Hs
      by (apply starts_with_spec; exists B; reflexivity).
    simpl in Hs. rewrite Hs.
    change (t0 :: target ++ B) with ((t0 :: target) ++ B).
    rewrite drop_app_length. reflexivity.
  - change ((a :: A) ++ target ++ B) with (a :: A ++ target ++ B).
    simpl replace_once.
    destruct (starts_with target (a :: A ++ target ++ B)) eqn:Hs.
    + apply starts_with_spec in Hs as [r Hr].
      specialize (Hfirst [] r). simpl in Hfirst. rewrite <- Hr in Hfirst.
      specialize (Hfirst eq_refl). lia.
    + rewrite (IH (first_occurrence_tail _ _ _ _ Hfirst)). reflexivity.
Qed.

(** On plain texts the call returns, for whatever target, and leaves a
    plain paragraph whose text is the text before with the first occurrence
    of a target that is not empty replaced. *)
Lemma replace_text_plain (p : paragraph) (old_text new_text : str) :
  plain_paragraph p -> plain new_text ->
  exists p', replace_text_in_paragraph p old_text new_text = Some p'
             /\ plain_paragraph p'
             /\ (old_text <> [] ->
                 paragraph_text p' = replace_once old_text new_text (paragraph_text p)).
Proof.
  intros Hp Hnew. destruct old_text as [|o old].
  { exists p. split; [apply replace_text_empty_target|]. split; [exact Hp | congruence]. }
  destruct (str_in (o :: old) (paragraph_text p)) eqn:Hin.
  - destruct (find_from_spec (o :: old) _ 0 Hin) as (A & B & Heq & _ & Hmin).
    assert (first_occurrence A (o :: old) B) as Hfirst
      by (intros A' B' H'; apply (Hmin A' B'); rewrite Heq; symmetry; exact H').
    destruct (replace_text_first p A (o :: old) B new_text) as (p' & Hrun & Htext);
      [discriminate | exact Heq | exact Hfirst | exact Hp | exact Hnew |].
    exists p'. split; [exact Hrun|]. split.
    + unfold plain_paragraph in *. rewrite Htext. rewrite Heq in Hp.
      apply plain_app in Hp as [HA Hp]. apply plain_app in Hp as [_ HB].
      apply plain_app. split; [exact HA|]. apply plain_app. split; assumption.
    + intros _. rewrite Htext, Heq. symmetry. apply replace_once_first; [discriminate|exact Hfirst].
  - exists p. split; [apply replace_text_noop, absent_by_str_in, Hin|]. split; [exact Hp|].
    intros _. rewrite replace_once_absent by exact Hin. reflexivity.
Qed.

Lemma plain_by_forallb (t : str) : forallb plain_char t = true -> plain t.
Proof. intros H. exact H. Qed.

(** *** What the specification says of [replace_text_in_paragraph] *)

(** C1, as the code has it: when the text of the paragraph is
    [A ++ target ++ B], with [target] not empty and first occurring after
    [A], and the text of the paragraph and [R] are plain (characters that
    the assignment of [run.text] stores as they are), then however that text
    is cut into runs, [replace_text_in_paragraph] returns and leaves the text
    [A ++ R ++ B]; the runs stay as many; a run that lies wholly before or
    wholly after the match keeps its text and formatting; the run in which
    the match starts keeps its formatting and holds its text before the
    match, then [R], then its text after the match; and every other run
    holds only characters of its own. *)
Theorem replace_text_in_paragraph_correct (p : paragraph) (A target B R : str) :
  target <> [] ->
  get_full_text (runs p) = A ++ target ++ B ->
  first_occurrence A target B ->
  plain (get_full_text (runs p)) ->
  plain R ->
  exists p',
    replace_text_in_paragraph p target R = Some p' /\
    let match_start := len A in
    let match_end := len A + len target in
    get_full_text (runs p') = A ++ R ++ B
    /\ length (runs p') = length (runs p)
    /\ (forall i r, runs p !! i = Some r ->
          run_offset (runs p) i + len (text r) <= match_start
          \/ match_end <= run_offset (runs p) i ->
          runs p' !! i = Some r)
    /\ (exists i r, runs p !! i = Some r
          /\ run_offset (runs p) i <= match_start < run_offset (runs p) i + len (text r)
          /\ runs p' !! i =
               Some {| text := take (Z.to_nat (match_start - run_offset (runs p) i)) (text r)
                                 ++ R
                                 ++ drop (Z.to_nat (match_end - run_offset (runs p) i)) (text r);
                       fmt := fmt r |})
    /\ (forall i r, runs p !! i = Some r ->
          ~ (run_offset (runs p) i <= match_start < run_offset (runs p) i + len (text r)) ->
          runs p' !! i =
            Some {| text := take (Z.to_nat (match_start - run_offset (runs p) i)) (text r)
                              ++ drop (Z.to_nat (match_end - run_offset (runs p) i)) (text r);
                    fmt := fmt r |}).
Proof.
  intros Hne Hfull Hfirst Hp HR.
  pose proof (len_pos_of_nonempty target Hne) as Hpos.
  rewrite (replace_text_unfold p A target B R Hfull Hfirst).
  destruct (replace_runs_plain (runs p) 0 (len A) (len A + len target) R)
    as (rs' & -> & Hlen & Htext & Hrun); [lia | apply plain_full_text, Hp | exact HR |].
  eexists. split; [reflexivity|]. intros match_start match_end.
  assert (match_start < match_end) as Hlt by (subst match_start match_end; lia).
  assert (forall i r, runs p !! i = Some r ->
            rs' !! i
            = Some {| text := splice_at (text r) (match_start - run_offset (runs p) i)
                                (match_end - run_offset (runs p) i) R;
                      fmt := fmt r |}) as Hrun'.
  { intros i r Hi. rewrite (Hrun i r Hi). subst match_start match_end.
    do 3 f_equal; lia. }
  clear Hrun. simpl runs. repeat split.
  - rewrite Htext, Hfull, !Z.sub_0_r. apply splice_at_decomposition. exact Hne.
  - exact Hlen.
  - intros i r Hi Hout. rewrite (Hrun' _ _ Hi). destruct r as [t f]. simpl in *.
    do 2 f_equal. apply splice_at_outside; [exact Hlt|].
    apply andb_false_iff. destruct Hout; [right | left]; apply Z.ltb_ge; lia.
  - destruct (run_at_offset (runs p) match_start) as (i & r & Hi & Hr).
    { rewrite Hfull, !len_app. pose proof (len_nonneg A). pose proof (len_nonneg B).
      subst match_start. lia. }
    exists i, r. split; [exact Hi|]. split; [exact Hr|].
    rewrite (Hrun' _ _ Hi). unfold splice_at.
    replace (0 <=? match_start - run_offset (runs p) i) with true
      by (symmetry; apply Z.leb_le; lia).
    replace (match_start - run_offset (runs p) i <? len (text r)) with true
      by (symmetry; apply Z.ltb_lt; lia).
    reflexivity.
  - intros i r Hi Hnot. rewrite (Hrun' _ _ Hi). unfold splice_at.
    destruct (Z.leb_spec 0 (match_start - run_offset (runs p) i));
      destruct (Z.ltb_spec (match_start - run_offset (runs p) i) (len (text r)));
      simpl; try reflexivity.
    exfalso. apply Hnot. lia.
Qed.

(** A marker cut over three runs: [Hello {{] / [Na] / [me}}!]. *)
Lemma replace_text_in_paragraph_correct_witness :
  let p := Paragraph [Run (lit "Hello {{") 1; Run (lit "Na") 2; Run (lit "me}}!") 3] in
  exists p', replace_text_in_paragraph p (lit "{{Name}}") (lit "Bob") = Some p'
             /\ get_full_text (runs p') = lit "Hello " ++ lit "Bob" ++ lit "!".
Proof.
  intros p.
  destruct (replace_text_in_paragraph_correct p (lit "Hello ") (lit "{{Name}}") (lit "!")
              (lit "Bob")) as (p' & Hrun & Htext & _).
  - discriminate.
  - reflexivity.
  - apply first_occurrence_by_find. vm_compute. reflexivity.
  - reflexivity.
  - reflexivity.
  - exists p'. split; [exact Hrun | exact Htext].
Defined.

(** Counterexample to C1: a replacement with a carriage return. The
    assignment of [run.text] turns it into a line break, which reads as a
    newline: the text of the paragraph is not [A ++ R ++ B]. *)
Lemma carriage_return_not_kept :
  let p := Paragraph [Run (lit "a{{x}}b") 1] in
  let R := lit "one" ++ [carriage_return] ++ lit "two" in
  (paragraph_text <$> replace_text_in_paragraph p (lit "{{x}}") R)
  = Some (lit "aone" ++ [line_feed] ++ lit "twob")
  /\ lit "aone" ++ [line_feed] ++ lit "twob" <> lit "a" ++ R ++ lit "b".
Proof. split; [vm_compute; reflexivity | discriminate]. Qed.

(** C9: when the target does not occur in the text of the paragraph,
    [replace_text_in_paragraph] returns the paragraph as it was, every run
    with the text and formatting it had, whatever the replacement. *)
Theorem replace_text_in_paragraph_absent (p : paragraph) (target R : str) :
  ~ occurs_in target (get_full_text (runs p)) ->
  replace_text_in_paragraph p target R = Some p.
Proof.
  apply replace_text_noop.
Qed.

Lemma replace_text_in_paragraph_absent_witness :
  let p := Paragraph [Run (lit "Price: {5}") 1; Run (lit " units") 2] in
  replace_text_in_paragraph p (lit "{{Price}}") (lit "12") = Some p.
Proof.
  intros p. apply (replace_text_in_paragraph_absent p (lit "{{Price}}") (lit "12")).
  apply absent_by_str_in. vm_compute. reflexivity.
Defined.

(** *** Further properties of [replace_text_in_paragraph] *)

(** X1: whatever the target and the replacement, the paragraph the call
    leaves has the runs it had: as many as before, each with the formatting
    it had, in the same order. *)
Theorem replace_text_in_paragraph_keeps_formats (p p' : paragraph) (old_text new_text : str) :
  replace_text_in_paragraph p old_text new_text = Some p' ->
  formats_of p' = formats_of p /\ length (runs p') = length (runs p).
Proof.
  intros Hrun. pose proof (replace_text_formats p p' old_text new_text Hrun) as H.
  split; [exact H|].
  apply (f_equal length) in H. unfold formats_of in H. rewrite !length_fmap in H. exact H.
Qed.

Lemma replace_text_in_paragraph_keeps_formats_witness :
  let p := Paragraph [Run (lit "Hello {{") 1; Run (lit "Na") 2; Run (lit "me}}!") 3] in
  exists p', replace_text_in_paragraph p (lit "{{Name}}") (lit "Bob") = Some p'
             /\ formats_of p' = [1; 2; 3]%nat.
Proof.
  intros p.
  destruct (replace_text_in_paragraph p (lit "{{Name}}") (lit "Bob")) as [p'|] eqn:Hrun;
    [|vm_compute in Hrun; discriminate].
  exists p'. split; [reflexivity|].
  exact (proj1 (replace_text_in_paragraph_keeps_formats p p' _ _ Hrun)).
Defined.

(** X2: with the empty text as target the paragraph is returned as it was:
    the target is found at offset 0 with length 0, no run overlaps it, and
    the replacement is not inserted anywhere. *)
Theorem replace_text_in_paragraph_empty_target (p : paragraph) (new_text : str) :
  replace_text_in_paragraph p [] new_text = Some p.
Proof. apply replace_text_empty_target. Qed.

(** X3: for a target that is not empty and plain texts, the call returns
    and the text of the paragraph is the text before with its first
    occurrence of the target replaced, as [str.replace(old, new, 1)] gives
    it on the concatenated text, however the text is cut into runs. *)
Theorem replace_text_in_paragraph_is_replace_once (p : paragraph) (old_text new_text : str) :
  old_text <> [] ->
  plain (paragraph_text p) ->
  plain new_text ->
  exists p', replace_text_in_paragraph p old_text new_text = Some p'
             /\ paragraph_text p' = replace_once old_text new_text (paragraph_text p).
Proof.
  intros Hne Hp Hnew.
  destruct (replace_text_plain p old_text new_text Hp Hnew) as (p' & Hrun & _ & Htext).
  exists p'. split; [exact Hrun | exact (Htext Hne)].
Qed.

Lemma replace_text_in_paragraph_is_replace_once_witness :
  exists p',
    replace_text_in_paragraph
      (Paragraph [Run (lit "a {{") 1; Run (lit "x}} b {{x") 2; Run (lit "}}") 3])
      (lit "{{x}}") (lit "1") = Some p'
    /\ paragraph_text p' = replace_once (lit "{{x}}") (lit "1") (lit "a {{x}} b {{x}}").
Proof.
  apply (replace_text_in_paragraph_is_replace_once
           (Paragraph [Run (lit "a {{") 1; Run (lit "x}} b {{x") 2; Run (lit "}}") 3])
           (lit "{{x}}") (lit "1")).
  - discriminate.
  - reflexivity.
  - reflexivity.
Defined.

(** ** The traversal of the document *)

Lemma foldl_union_spec {A} (step : gset str -> A -> gset str) (Q : A -> str -> Prop)
    (l : list A) (acc : gset str) (x : str) :
  (forall acc a, x ∈ step acc a <-> x ∈ acc \/ Q a x) ->
  x ∈ foldl step acc l <-> x ∈ acc \/ exists a, a ∈ l /\ Q a x.
Proof.
  intros Hstep. revert acc; induction l as [|a l IH]; intros acc; simpl.
  - split; [auto | intros [H | (a & Ha & _)]; [exact H | inversion Ha]].
  - rewrite IH, Hstep. split.
    + intros [[H | H] | (b & Hb & HQ)]; [auto | right | right].
      * exists a. split; [constructor | exact H].
      * exists b. split; [constructor; exact Hb | exact HQ].
    + intros [H | (b & Hb & HQ)]; [auto|].
      apply elem_of_cons in Hb as [-> | Hb]; [auto|].
      right. exists b. auto.
Qed.

Lemma scan_paragraphs_spec (visit : paragraph -> list str) (st : list paragraph)
    (refs : list ref) (acc : gset str) (x : str) :
  x ∈ scan_paragraphs visit st refs acc
  <-> x ∈ acc \/ exists r, r ∈ refs /\ exists p, st !! r = Some p /\ x ∈ visit p.
Proof.
  unfold scan_paragraphs.
  apply (foldl_union_spec _ (fun r x => exists p, st !! r = Some p /\ x ∈ visit p)).
  intros acc' r. destruct (st !! r) as [p|].
  - rewrite elem_of_union, elem_of_list_to_set. split.
    + intros [H | H]; [auto | right; exists p; auto].
    + intros [H | (p' & [= <-] & H)]; auto.
  - split; [auto | intros [H | (p' & [=] & _)]; exact H].
Qed.

Lemma exists_in_bind {A B} (f : A -> list B) (l : list A) (Q : B -> Prop) :
  (exists a, a ∈ l /\ exists b, b ∈ f a /\ Q b) <-> exists b, b ∈ l ≫= f /\ Q b.
Proof.
  split.
  - intros (a & Ha & b & Hb & HQ). exists b. split; [|exact HQ].
    apply list_elem_of_bind. exists a. split; assumption.
  - intros (b & Hb & HQ). apply list_elem_of_bind in Hb as (a & Hb & Ha).
    exists a. split; [exact Ha|]. exists b. split; assumption.
Qed.

Lemma exists_in_app {B} (l1 l2 : list B) (Q : B -> Prop) :
  (exists b, b ∈ l1 ++ l2 /\ Q b) <-> (exists b, b ∈ l1 /\ Q b) \/ (exists b, b ∈ l2 /\ Q b).
Proof.
  split.
  - intros (b & Hb & HQ). apply elem_of_app in Hb as [Hb | Hb]; [left | right]; exists b; auto.
  - intros [(b & Hb & HQ) | (b & Hb & HQ)]; exists b; (split; [|exact HQ]);
      apply elem_of_app; auto.
Qed.

Lemma scan_document_refs (visit : paragraph -> list str) (doc : document) (x : str) :
  x ∈ scan_document visit doc
  <-> exists r, r ∈ visited_refs doc /\ exists p, store doc !! r = Some p /\ x ∈ visit p.
Proof.
  pose (Q := fun r : ref => exists p, store doc !! r = Some p /\ x ∈ visit p).
  change (x ∈ scan_document visit doc <-> exists r, r ∈ visited_refs doc /\ Q r).
  unfold scan_document, visited_refs.
  rewrite (foldl_union_spec _ (fun s x => exists r, r ∈ header s ++ footer s /\ Q r)).
  2:{ intros acc s. rewrite !scan_paragraphs_spec, (exists_in_app _ _ Q). tauto. }
  rewrite (foldl_union_spec _
             (fun t x => exists r,
                  r ∈ (table_rows t ≫= fun row : list cell => row ≫= paragraphs_of_cell)
                  /\ Q r)).
  2:{ intros acc t.
      rewrite (foldl_union_spec _
                 (fun (row : list cell) x => exists r, r ∈ row ≫= paragraphs_of_cell /\ Q r)).
      2:{ intros acc' row.
          rewrite (foldl_union_spec _
                     (fun c x => exists r, r ∈ paragraphs_of_cell c /\ Q r)).
          2:{ intros acc'' c. apply scan_paragraphs_spec. }
          rewrite (exists_in_bind paragraphs_of_cell row Q). reflexivity. }
      rewrite (exists_in_bind (fun row : list cell => row ≫= paragraphs_of_cell)
                 (table_rows t) Q).
      reflexivity. }
  rewrite scan_paragraphs_spec, !(exists_in_app _ _ Q).
  rewrite (exists_in_bind
             (fun t => table_rows t ≫= fun row : list cell => row ≫= paragraphs_of_cell)
             (tables doc) Q).
  rewrite (exists_in_bind (fun s => header s ++ footer s) (sections doc) Q).
  pose proof (not_elem_of_empty (C := gset str) x). tauto.
Qed.

(** The set the traversal builds holds what [visit] finds in the visited
    paragraphs, and nothing else. *)
Lemma scan_document_spec (visit : paragraph -> list str) (doc : document) (x : str) :
  x ∈ scan_document visit doc <-> exists p, p ∈ visited_paragraphs doc /\ x ∈ visit p.
Proof.
  rewrite scan_document_refs. unfold visited_paragraphs. split.
  - intros (r & Hr & p & Hp & Hx). exists p. split; [|exact Hx].
    apply list_elem_of_omap. exists r. auto.
  - intros (p & Hp & Hx). apply list_elem_of_omap in Hp as (r & Hr & Hp).
    exists r. split; [exact Hr|]. exists p. auto.
Qed.

(** ** The loops of the substitution *)

Lemma for_each_app {A S} (body : S -> A -> option S) (st : S) (xs ys : list A) :
  for_each body st (xs ++ ys)
  = match for_each body st xs with
    | None => None
    | Some st' => for_each body st' ys
    end.
Proof.
  revert st; induction xs as [|x xs IH]; intros st; simpl; [reflexivity|].
  destruct (body st x); [apply IH | reflexivity].
Qed.

Lemma for_each_bind {A B S} (body : S -> B -> option S) (f : A -> list B) (st : S)
    (xs : list A) :
  for_each (fun st a => for_each body st (f a)) st xs = for_each body st (xs ≫= f).
Proof.
  revert st; induction xs as [|x xs IH]; intros st; [reflexivity|].
  rewrite bind_cons, for_each_app. simpl.
  destruct (for_each body st (f x)); [apply IH | reflexivity].
Qed.

Lemma for_each_ext {A S} (body1 body2 : S -> A -> option S) (st : S) (xs : list A) :
  (forall st a, body1 st a = body2 st a) -> for_each body1 st xs = for_each body2 st xs.
Proof.
  intros H. revert st; induction xs as [|x xs IH]; intros st; simpl; [reflexivity|].
  rewrite H. destruct (body2 st x); [apply IH | reflexivity].
Qed.

(** The three loops are one loop over the visited references. *)
Lemma replace_everywhere_flat (doc : document) (old_text new_text : str) (st : list paragraph) :
  replace_everywhere doc old_text new_text st
  = for_each (replace_at old_text new_text) st (visited_refs doc).
Proof.
  unfold replace_everywhere, visited_refs. rewrite !for_each_app.
  destruct (for_each _ st (paragraphs doc)) as [st1|]; [|reflexivity].
  rewrite for_each_app.
  rewrite <- (for_each_bind (replace_at old_text new_text)
                (fun t => table_rows t ≫= fun row : list cell => row ≫= paragraphs_of_cell)).
  rewrite (for_each_ext _
             (fun st t => for_each (replace_at old_text new_text) st
                            (table_rows t ≫= fun row : list cell => row ≫= paragraphs_of_cell))).
  2:{ intros st' t.
      rewrite <- (for_each_bind (replace_at old_text new_text)
                    (fun row : list cell => row ≫= paragraphs_of_cell)).
      apply for_each_ext. intros st'' row. apply for_each_bind. }
  destruct (for_each _ st1 (tables doc)) as [st2|]; [|reflexivity].
  rewrite <- (for_each_bind (replace_at old_text new_text) (fun s => header s ++ footer s)).
  apply for_each_ext. intros st' s. rewrite for_each_app. reflexivity.
Qed.

Lemma repeat_replace_succ (n : nat) (p : paragraph) (old_text new_text : str) :
  repeat_replace (S n) p old_text new_text
  = match replace_text_in_paragraph p old_text new_text with
    | None => None
    | Some p' => repeat_replace n p' old_text new_text
    end.
Proof. reflexivity. Qed.

(** Each object ends as the replacements of its visits leave it. *)
Lemma for_each_replace_lookup (old_text new_text : str) (refs : list ref)
    (st st' : list paragraph) :
  for_each (replace_at old_text new_text) st refs = Some st' ->
  length st' = length st
  /\ forall r p, st !! r = Some p ->
       exists p', st' !! r = Some p'
                  /\ repeat_replace (count_occ Nat.eq_dec refs r) p old_text new_text = Some p'.
Proof.
  revert st; induction refs as [|r0 refs IH]; intros st; simpl.
  - intros [= <-]. split; [reflexivity|]. intros r p Hp. exists p. auto.
  - unfold replace_at at 1. destruct (st !! r0) as [p0|] eqn:Hp0.
    + destruct (replace_text_in_paragraph p0 old_text new_text) as [p0'|] eqn:Hrep;
        [|discriminate].
      intros Hloop. destruct (IH _ Hloop) as [Hlen Hlook].
      rewrite length_insert in Hlen. split; [exact Hlen|].
      intros r p Hp. destruct (Nat.eq_dec r0 r) as [->|Hne].
      * assert (Some p = Some p0) as [= ->] by (etrans; [symmetry; exact Hp | exact Hp0]).
        destruct (Hlook r p0') as (p' & Hp' & Hrest).
        { apply list_lookup_insert_eq. apply lookup_lt_Some in Hp0. exact Hp0. }
        exists p'. split; [exact Hp'|]. rewrite repeat_replace_succ, Hrep. exact Hrest.
      * apply Hlook. rewrite list_lookup_insert_ne by exact Hne. exact Hp.
    + intros Hloop. destruct (IH _ Hloop) as [Hlen Hlook]. split; [exact Hlen|].
      intros r p Hp. destruct (Nat.eq_dec r0 r) as [->|Hne]; [|apply Hlook; exact Hp].
      exfalso. assert (Some p = None) as [=] by (etrans; [symmetry; exact Hp | exact Hp0]).
Qed.

(** The first loop of [replace_placeholders], object by object. *)
Lemma substitute_store_lookup (doc : document) (data : dict str str) (mapping : mapping_t)
    (st st' : list paragraph) :
  substitute_store doc data mapping st = Some st' ->
  length st' = length st
  /\ forall r p, st !! r = Some p ->
       exists p', st' !! r = Some p'
                  /\ substitute_paragraph data mapping (visits doc r) p = Some p'.
Proof.
  revert st; induction mapping as [|[t [c sc]] rest IH]; intros st; simpl.
  - intros [= <-]. split; [reflexivity|]. intros r p Hp. exists p. auto.
  - destruct (truthy c); [|apply IH].
    destruct (c ≫= dict_get data) as [value|]; [|discriminate].
    rewrite replace_everywhere_flat.
    destruct (for_each _ st (visited_refs doc)) as [st1|] eqn:Hpass; [|discriminate].
    intros Hrest. destruct (for_each_replace_lookup _ _ _ _ _ Hpass) as [Hlen1 Hlook1].
    destruct (IH _ Hrest) as [Hlen Hlook]. split; [congruence|].
    intros r p Hp. destruct (Hlook1 r p Hp) as (p1 & Hp1 & Hrep).
    destruct (Hlook r p1 Hp1) as (p' & Hp' & Hsub).
    exists p'. split; [exact Hp'|]. unfold visits. rewrite Hrep. exact Hsub.
Qed.

(** On plain texts a pass over the references returns and leaves plain
    paragraphs. *)
Lemma for_each_replace_plain (old_text new_text : str) (refs : list ref) (st : list paragraph) :
  Forall plain_paragraph st -> plain new_text ->
  exists st', for_each (replace_at old_text new_text) st refs = Some st'
              /\ Forall plain_paragraph st'.
Proof.
  intros Hst Hnew. revert st Hst; induction refs as [|r refs IH]; intros st Hst; simpl.
  - exists st. auto.
  - unfold replace_at at 1. destruct (st !! r) as [p|] eqn:Hp; [|apply IH, Hst].
    destruct (replace_text_plain p old_text new_text) as (p' & -> & Hp' & _);
      [exact (proj1 (Forall_lookup _ _) Hst _ _ Hp) | exact Hnew |].
    apply IH. apply Forall_insert; assumption.
Qed.

Lemma row_covers_tail (data : dict str str) (e : str * (option str * Z)) (rest : mapping_t) :
  row_covers data (e :: rest) -> row_covers data rest.
Proof. intros H t c sc Hin. apply (H t c sc). right. exact Hin. Qed.

Lemma plain_values_tail (data : dict str str) (e : str * (option str * Z)) (rest : mapping_t) :
  plain_values data (e :: rest) -> plain_values data rest.
Proof. intros H t c sc v Hin. apply (H t c sc v). right. exact Hin. Qed.

(** With plain texts the first loop fails only for a missing value. *)
Lemma substitute_store_plain (doc : document) (data : dict str str) (mapping : mapping_t)
    (st : list paragraph) :
  Forall plain_paragraph st -> plain_values data mapping ->
  (substitute_store doc data mapping st = None <-> missing_value data mapping)
  /\ (forall st', substitute_store doc data mapping st = Some st' -> Forall plain_paragraph st').
Proof.
  unfold missing_value.
  revert st; induction mapping as [|[t [c sc]] rest IH]; intros st Hst Hval.
  - simpl. split; [|intros st' [= <-]; exact Hst].
    split; [discriminate | intros (t & c & sc & Hin & _); inversion Hin].
  - assert ((exists t' c' sc', (t', (Some c', sc')) ∈ (t, (c, sc)) :: rest
                               /\ c' <> [] /\ dict_get data c' = None)
            <-> (exists c', c = Some c' /\ c' <> [] /\ dict_get data c' = None)
                \/ (exists t' c' sc', (t', (Some c', sc')) ∈ rest
                                      /\ c' <> [] /\ dict_get data c' = None)) as ->.
    { split.
      - intros (t' & c' & sc' & Hin & Hc & Hget).
        apply elem_of_cons in Hin as [[= -> <- ->] | Hin].
        + left. exists c'. auto.
        + right. exists t', c', sc'. auto.
      - intros [(c' & -> & Hc & Hget) | (t' & c' & sc' & Hin & Hc & Hget)].
        + exists t, c', sc. split; [left | auto].
        + exists t', c', sc'. split; [right; exact Hin | auto]. }
    pose proof (plain_values_tail _ _ _ Hval) as Hval'.
    simpl. destruct c as [[|a c]|]; simpl.
    + destruct (IH st Hst Hval') as [IH1 IH2]. split; [|exact IH2].
      rewrite IH1. split; [auto | intros [(c' & [= <-] & Hc & _) | H]; [congruence | exact H]].
    + destruct (dict_get data (a :: c)) as [value|] eqn:Hget.
      * rewrite replace_everywhere_flat.
        destruct (for_each_replace_plain (placeholder_text t) value (visited_refs doc) st Hst)
          as (st1 & -> & Hst1); [apply (Hval t (a :: c) sc value); [left | exact Hget]|].
        destruct (IH st1 Hst1 Hval') as [IH1 IH2]. split; [|exact IH2].
        rewrite IH1. split; [auto|].
        intros [(c' & [= <-] & _ & H) | H]; [congruence | exact H].
      * split; [|discriminate]. split; [|reflexivity]. intros _. left. exists (a :: c).
        split; [reflexivity|]. split; [discriminate | exact Hget].
    + destruct (IH st Hst Hval') as [IH1 IH2]. split; [|exact IH2].
      rewrite IH1. split; [auto | intros [(c' & [=] & _) | H]; exact H].
Qed.

Lemma not_missing_of_covers (data : dict str str) (mapping : mapping_t) :
  row_covers data mapping -> ~ missing_value data mapping.
Proof.
  intros Hcov (t & c & sc & Hin & Hc & Hget).
  destruct (Hcov t c sc Hin Hc) as [v Hv]. congruence.
Qed.

Lemma substitute_store_total (doc : document) (data : dict str str) (mapping : mapping_t)
    (st : list paragraph) :
  Forall plain_paragraph st -> plain_values data mapping -> row_covers data mapping ->
  exists st', substitute_store doc data mapping st = Some st' /\ Forall plain_paragraph st'.
Proof.
  intros Hst Hval Hcov.
  destruct (substitute_store_plain doc data mapping st Hst Hval) as [Hfail Hplain].
  destruct (substitute_store doc data mapping st) as [st'|] eqn:Hrun.
  - exists st'. split; [reflexivity | apply Hplain; reflexivity].
  - exfalso. apply (not_missing_of_covers data mapping Hcov), Hfail. reflexivity.
Qed.

(** *** Paragraph by paragraph *)

Lemma placeholder_text_nonempty (t : str) : placeholder_text t <> [].
Proof. discriminate. Qed.

Lemma repeat_replace_absent (n : nat) (p : paragraph) (old_text new_text : str) :
  ~ occurs_in old_text (paragraph_text p) ->
  repeat_replace n p old_text new_text = Some p.
Proof.
  intros Habs. induction n as [|n IH]; [reflexivity|].
  rewrite repeat_replace_succ, (replace_text_noop p old_text new_text Habs). exact IH.
Qed.

Lemma repeat_replace_formats (n : nat) (p p' : paragraph) (old_text new_text : str) :
  repeat_replace n p old_text new_text = Some p' -> formats_of p' = formats_of p.
Proof.
  revert p; induction n as [|n IH]; intros p; simpl; [intros [= <-]; reflexivity|].
  destruct (replace_text_in_paragraph p old_text new_text) as [p1|] eqn:H1; [|discriminate].
  intros H. rewrite (IH _ H). exact (replace_text_formats _ _ _ _ H1).
Qed.

Lemma repeat_replace_plain (n : nat) (p p' : paragraph) (old_text new_text : str) :
  plain_paragraph p -> plain new_text ->
  repeat_replace n p old_text new_text = Some p' -> plain_paragraph p'.
Proof.
  intros Hp Hnew. revert p Hp; induction n as [|n IH]; intros p Hp; simpl;
    [intros [= <-]; exact Hp|].
  destruct (replace_text_plain p old_text new_text Hp Hnew) as (p1 & -> & Hp1 & _).
  apply IH, Hp1.
Qed.

Lemma substitute_paragraph_app (data : dict str str) (m1 m2 : mapping_t) (n : nat)
    (p : paragraph) :
  substitute_paragraph data (m1 ++ m2) n p
  = match substitute_paragraph data m1 n p with
    | None => None
    | Some p1 => substitute_paragraph data m2 n p1
    end.
Proof.
  revert p; induction m1 as [|[t [c sc]] m1 IH]; intros p; simpl; [reflexivity|].
  destruct (truthy c); [|apply IH].
  destruct (c ≫= dict_get data); [|reflexivity].
  destruct (repeat_replace n p (placeholder_text t) s); [apply IH | reflexivity].
Qed.

Lemma substitute_paragraph_formats (data : dict str str) (mapping : mapping_t) (n : nat)
    (p p' : paragraph) :
  substitute_paragraph data mapping n p = Some p' -> formats_of p' = formats_of p.
Proof.
  revert p; induction mapping as [|[t [c sc]] rest IH]; intros p; simpl;
    [intros [= <-]; reflexivity|].
  destruct (truthy c); [|apply IH].
  destruct (c ≫= dict_get data) as [value|]; [|discriminate].
  destruct (repeat_replace n p (placeholder_text t) value) as [p1|] eqn:H1; [|discriminate].
  intros H. rewrite (IH _ H). exact (repeat_replace_formats _ _ _ _ _ H1).
Qed.

Lemma substitute_paragraph_plain (data : dict str str) (mapping : mapping_t) (n : nat)
    (p p' : paragraph) :
  plain_paragraph p -> plain_values data mapping ->
  substitute_paragraph data mapping n p = Some p' -> plain_paragraph p'.
Proof.
  revert p; induction mapping as [|[t [c sc]] rest IH]; intros p Hp Hval; simpl;
    [intros [= <-]; exact Hp|].
  pose proof (plain_values_tail _ _ _ Hval) as Hval'.
  destruct (truthy c) eqn:Htr; [|apply IH; assumption].
  destruct c as [c|]; [|discriminate]. simpl.
  destruct (dict_get data c) as [value|] eqn:Hget; [|discriminate].
  destruct (repeat_replace n p (placeholder_text t) value) as [p1|] eqn:H1; [|discriminate].
  apply IH; [|exact Hval'].
  apply (repeat_replace_plain n p p1 (placeholder_text t) value Hp); [|exact H1].
  apply (Hval t c sc value); [left | exact Hget].
Qed.

(** Entries whose markers do not occur leave the paragraph as it is. *)
Lemma substitute_paragraph_absent (data : dict str str) (mapping : mapping_t) (n : nat)
    (p : paragraph) :
  row_covers data mapping ->
  markers_absent mapping (paragraph_text p) ->
  substitute_paragraph data mapping n p = Some p.
Proof.
  induction mapping as [|[t [c sc]] rest IH]; intros Hcov Habs; [reflexivity|].
  assert (markers_absent rest (paragraph_text p)) as Hrest.
  { intros t' c' sc' Hin. apply (Habs t' c' sc'). right. exact Hin. }
  pose proof (row_covers_tail _ _ _ Hcov) as Hcov'.
  simpl. destruct (truthy c) eqn:Htr; [|exact (IH Hcov' Hrest)].
  destruct c as [[|a c]|]; try discriminate. simpl.
  destruct (Hcov t (a :: c) sc) as [value ->]; [left | discriminate |].
  rewrite repeat_replace_absent; [exact (IH Hcov' Hrest)|].
  apply (Habs t (Some (a :: c)) sc); [left | exact Htr].
Qed.

Lemma row_covers_app (data : dict str str) (m1 m2 : mapping_t) :
  row_covers data m1 -> row_covers data m2 -> row_covers data (m1 ++ m2).
Proof.
  intros H1 H2 t c sc Hin. apply elem_of_app in Hin as [Hin | Hin]; eauto.
Qed.

Lemma plain_values_app (data : dict str str) (m1 m2 : mapping_t) :
  plain_values data m1 -> plain_values data m2 -> plain_values data (m1 ++ m2).
Proof.
  intros H1 H2 t c sc v Hin. apply elem_of_app in Hin as [Hin | Hin]; eauto.
Qed.

Lemma row_covers_entry (data : dict str str) (t c : str) (sc : Z) (value : str) :
  dict_get data c = Some value -> row_covers data [(t, (Some c, sc))].
Proof.
  intros Hv t' c' sc' Hin _. apply list_elem_of_singleton in Hin. injection Hin as _ -> _.
  exists value. exact Hv.
Qed.

Lemma plain_values_entry (data : dict str str) (t c : str) (sc : Z) (value : str) :
  dict_get data c = Some value -> plain value -> plain_values data [(t, (Some c, sc))].
Proof.
  intros Hv Hplain t' c' sc' v Hin Hget. apply list_elem_of_singleton in Hin.
  injection Hin as _ -> _. congruence.
Qed.

Lemma row_covers_nil (data : dict str str) : row_covers data [].
Proof. intros t c sc Hin. inversion Hin. Qed.

Lemma plain_values_nil (data : dict str str) : plain_values data [].
Proof. intros t c sc v Hin. inversion Hin. Qed.

(** *** What the placeholder pattern finds *)

Lemma lazy_dots_reach_close (name B : str) :
  Forall (fun c => c <> open_brace /\ c <> close_brace /\ c <> newline) name ->
  m_star_lazy dot (m_char is_close (m_char is_close m_end))
    (name ++ [close_brace; close_brace] ++ B)
  = Some (name ++ [close_brace; close_brace]).
Proof.
  induction 1 as [|c name (_ & Hclose & Hnl) Hname IH]; [reflexivity|].
  simpl. unfold m_char at 1, is_close at 1, dot at 1.
  apply N.eqb_neq in Hclose, Hnl. rewrite Hclose, Hnl. simpl.
  simpl in IH. rewrite IH. reflexivity.
Qed.

Lemma placeholder_pattern_at_marker (prev : option char) (name B : str) :
  plain_name name ->
  placeholder_pattern prev (placeholder_text name ++ B) = Some (placeholder_text name).
Proof.
  intros [Hne Hname]. destruct Hname as [|c name (_ & _ & Hnl) Hname]; [congruence|].
  unfold placeholder_pattern, placeholder_text. simpl.
  unfold dot at 1. apply N.eqb_neq in Hnl. rewrite Hnl. simpl.
  rewrite <- app_assoc.
  rewrite (lazy_dots_reach_close name B Hname). reflexivity.
Qed.

Lemma group1_of_marker (name : str) : group1 (placeholder_text name) = name.
Proof.
  unfold group1, placeholder_text. simpl.
  replace (length (name ++ [close_brace; close_brace]) - 2)%nat with (length name)
    by (rewrite length_app; simpl; lia).
  apply take_app_length.
Qed.

Lemma scan_matches_hit (pat : option char -> matcher) (prev : option char) (c : char)
    (t m : str) :
  pat prev (c :: t) = Some m ->
  scan_matches pat prev 0 (c :: t) = m :: scan_matches pat (Some c) (length m - 1) t.
Proof. intros H. simpl. rewrite H. reflexivity. Qed.

Lemma scan_matches_miss (pat : option char -> matcher) (prev : option char) (c : char)
    (t : str) :
  pat prev (c :: t) = None ->
  scan_matches pat prev 0 (c :: t) = scan_matches pat (Some c) 0 t.
Proof. intros H. simpl. rewrite H. reflexivity. Qed.

Lemma scan_placeholders_prev (prev : option char) (skip : nat) (s : str) :
  scan_matches placeholder_pattern prev skip s = scan_matches placeholder_pattern None skip s.
Proof.
  destruct s as [|c t]; [reflexivity|]. destruct skip; reflexivity.
Qed.

Lemma scan_placeholders_skip (l s : str) :
  scan_matches placeholder_pattern None (length l) (l ++ s)
  = scan_matches placeholder_pattern None 0 s.
Proof.
  induction l as [|c l IH]; [destruct s; reflexivity|].
  simpl. rewrite scan_placeholders_prev. exact IH.
Qed.

Lemma scan_placeholders_brace_free (A s : str) :
  brace_free A ->
  scan_matches placeholder_pattern None 0 (A ++ s)
  = scan_matches placeholder_pattern None 0 s.
Proof.
  induction 1 as [|c A Hc HA IH]; [reflexivity|].
  change ((c :: A) ++ s) with (c :: A ++ s).
  rewrite scan_matches_miss, scan_placeholders_prev; [exact IH|].
  unfold placeholder_pattern, m_char at 1, is_open at 1.
  apply N.eqb_neq in Hc. rewrite Hc. reflexivity.
Qed.

(** In a template text the pattern finds the markers, all of them, in
    order. *)
Lemma findall_placeholders_template (before : str) (segments : list (str * str)) :
  brace_free before ->
  Forall (fun seg => plain_name (fst seg) /\ brace_free (snd seg)) segments ->
  findall_placeholders (template_text before segments) = fst <$> segments.
Proof.
  intros Hbefore Hsegs. unfold findall_placeholders, template_text.
  revert before Hbefore; induction Hsegs as [|[name after] segs [Hname Hafter] Hsegs IH];
    intros before Hbefore.
  - change ([] ≫= _) with (@nil char). rewrite <- (app_nil_r (before ++ [])), <- app_assoc.
    rewrite scan_placeholders_brace_free by exact Hbefore. reflexivity.
  - rewrite scan_placeholders_brace_free by exact Hbefore.
    rewrite bind_cons. simpl fst in *. simpl snd in *. rewrite <- app_assoc.
    set (tail := after ++ (segs ≫= fun seg => placeholder_text (fst seg) ++ snd seg)).
    pose proof (placeholder_pattern_at_marker None name tail Hname) as Hm.
    change (placeholder_text name ++ tail)
      with (open_brace :: (open_brace :: name ++ [close_brace; close_brace]) ++ tail)
      in Hm |- *.
    rewrite (scan_matches_hit _ _ _ _ _ Hm), scan_placeholders_prev.
    replace (length (placeholder_text name) - 1)%nat
      with (length (open_brace :: name ++ [close_brace; close_brace]))
      by (unfold placeholder_text; simpl; lia).
    rewrite scan_placeholders_skip. subst tail.
    rewrite !fmap_cons, group1_of_marker, (IH after Hafter). reflexivity.
Qed.


(** ** Substitution over the document *)

Lemma substitute_all_inv (doc doc' : document) (data : dict str str) (mapping : mapping_t) :
  substitute_all doc data mapping = Some doc' ->
  exists st', substitute_store doc data mapping (store doc) = Some st'
              /\ doc' = with_store doc st'.
Proof.
  unfold substitute_all. destruct (substitute_store _ _ _ _) as [st'|]; [|discriminate].
  intros [= <-]. exists st'. auto.
Qed.

(** What [substitute_all] leaves: the tree as it was, and each object as the
    replacements of its visits leave it. *)
Lemma substitute_all_lookup (doc doc' : document) (data : dict str str) (mapping : mapping_t) :
  substitute_all doc data mapping = Some doc' ->
  (paragraphs doc' = paragraphs doc /\ tables doc' = tables doc
   /\ sections doc' = sections doc /\ length (store doc') = length (store doc))
  /\ forall r p, store doc !! r = Some p ->
       exists p', store doc' !! r = Some p'
                  /\ substitute_paragraph data mapping (visits doc r) p = Some p'.
Proof.
  intros H. apply substitute_all_inv in H as (st' & Hst & ->).
  destruct (substitute_store_lookup _ _ _ _ _ Hst) as [Hlen Hlook].
  split; [repeat split; exact Hlen | exact Hlook].
Qed.

Lemma substitute_all_total (doc : document) (data : dict str str) (mapping : mapping_t) :
  plain_document doc -> plain_values data mapping -> row_covers data mapping ->
  exists doc', substitute_all doc data mapping = Some doc' /\ plain_document doc'.
Proof.
  intros Hdoc Hval Hcov.
  destruct (substitute_store_total doc data mapping (store doc) Hdoc Hval Hcov)
    as (st' & Hst & Hplain).
  exists (with_store doc st'). unfold substitute_all. rewrite Hst. auto.
Qed.

Lemma replace_placeholders_of_substitute (doc doc' : document) (data : dict str str)
    (mapping : mapping_t) :
  substitute_all doc data mapping = Some doc' ->
  replace_placeholders doc data mapping = Some (doc', extract_placeholders doc').
Proof. intros H. unfold replace_placeholders. rewrite H. reflexivity. Qed.

(** C2, as the code has it: the pass for a mapped token calls
    [replace_text_in_paragraph] once each time the traversal reaches a
    paragraph. With the token as the only entry of the mapping, a plain
    value and a document of plain texts, the pass returns; the tree and the
    number of paragraphs stay; each paragraph ends as that many calls as it
    is reached leave it; a paragraph without the marker stays as it is; and
    in a paragraph that is reached once and whose text is
    [A ++ marker ++ B], with the marker first occurring after [A], the text
    becomes [A ++ value ++ B]: the first occurrence is replaced, whatever
    [B] holds is kept. *)
Theorem replace_placeholders_first_occurrence (doc : document) (data : dict str str)
    (t c : str) (sc : Z) (value : str) :
  c <> [] ->
  dict_get data c = Some value ->
  plain value ->
  plain_document doc ->
  exists doc',
    replace_placeholders doc data [(t, (Some c, sc))] = Some (doc', extract_placeholders doc')
    /\ (paragraphs doc' = paragraphs doc /\ tables doc' = tables doc
        /\ sections doc' = sections doc /\ length (store doc') = length (store doc))
    /\ forall r p, store doc !! r = Some p ->
         exists p', store doc' !! r = Some p'
           /\ repeat_replace (visits doc r) p (placeholder_text t) value = Some p'
           /\ (~ occurs_in (placeholder_text t) (paragraph_text p) -> p' = p)
           /\ (visits doc r = 1%nat ->
               forall A B, paragraph_text p = A ++ placeholder_text t ++ B ->
                 first_occurrence A (placeholder_text t) B ->
                 paragraph_text p' = A ++ value ++ B).
Proof.
  intros Hc Hv Hvalue Hdoc.
  destruct (substitute_all_total doc data [(t, (Some c, sc))]) as (doc' & Hdoc' & _);
    [exact Hdoc | exact (plain_values_entry data t c sc value Hv Hvalue)
     | exact (row_covers_entry data t c sc value Hv) |].
  exists doc'. split; [exact (replace_placeholders_of_substitute _ _ _ _ Hdoc')|].
  destruct (substitute_all_lookup _ _ _ _ Hdoc') as [Htree Hlook].
  split; [exact Htree|].
  intros r p Hp. destruct (Hlook r p Hp) as (p' & Hp' & Hsub).
  exists p'. split; [exact Hp'|].
  simpl in Hsub. rewrite Hv in Hsub. destruct c as [|a c]; [congruence|]. simpl in Hsub.
  destruct (repeat_replace (visits doc r) p (placeholder_text t) value) as [p1|] eqn:Hrep;
    [|discriminate].
  injection Hsub as <-. split; [reflexivity|]. split.
  - intros Habs. rewrite (repeat_replace_absent _ _ _ _ Habs) in Hrep. congruence.
  - intros Hone A B Htext Hfirst. rewrite Hone in Hrep. simpl in Hrep.
    destruct (replace_text_first p A (placeholder_text t) B value) as (p2 & Hp2 & Htext2);
      [apply placeholder_text_nonempty | exact Htext | exact Hfirst
       | exact (proj1 (Forall_lookup _ _) Hdoc _ _ Hp) | exact Hvalue |].
    rewrite Hp2 in Hrep. injection Hrep as <-. exact Htext2.
Qed.



(** Counterexample to C2: the marker twice in one paragraph that is reached
    once. The second occurrence is still there after the pass, and the
    token is reported as unreplaced. *)
Lemma second_occurrence_stays :
  replace_placeholders (body_only [plain_run "{{Name}} and {{Name}}"])
    [(lit "Name", lit "Acme")] [(lit "Name", (Some (lit "Name"), 100))]
  = Some (body_only [plain_run "Acme and {{Name}}"], {[ lit "Name" ]})
  /\ occurs_in (placeholder_text (lit "Name"))
       (paragraph_text (plain_run "Acme and {{Name}}")).
Proof.
  split; [vm_compute; reflexivity|].
  exists (lit "Acme and "), []. reflexivity.
Qed.

(** The same paragraph in a cell merged over two grid columns: the
    traversal reaches it twice and both occurrences are replaced. *)
Lemma merged_cell_replaced_twice :
  let merged := Cell [0%nat] [] in
  let doc := Document [plain_run "{{Name}} and {{Name}}"] [] [Table [[merged; merged]]] [] in
  replace_placeholders doc [(lit "Name", lit "Acme")] [(lit "Name", (Some (lit "Name"), 100))]
  = Some (with_store doc [plain_run "Acme and Acme"], ∅).
Proof. vm_compute. reflexivity. Qed.

Lemma plain_document_by_forallb (doc : document) :
  forallb (fun p => forallb plain_char (paragraph_text p)) (store doc) = true ->
  plain_document doc.
Proof.
  intros H. apply Forall_forall. intros p Hp. rewrite forallb_forall in H.
  apply H, list_elem_of_In, Hp.
Qed.

Lemma replace_placeholders_first_occurrence_witness :
  let merged := Cell [2%nat] [] in
  let doc := Document [plain_run "{{Name}} and {{Name}}"; plain_run "To: {{Name}}";
                       plain_run "{{Name}} and {{Name}}"]
               [0%nat; 1%nat] [Table [[merged; merged]]] [] in
  exists doc',
    replace_placeholders doc [(lit "Name", lit "Acme")]
      [(lit "Name", (Some (lit "Name"), 100))]
    = Some (doc', extract_placeholders doc')
    /\ (paragraph_text <$> store doc')
       = [lit "Acme and {{Name}}"; lit "To: Acme"; lit "Acme and Acme"].
Proof.
  intros merged doc.
  destruct (replace_placeholders_first_occurrence doc
              [(lit "Name", lit "Acme")] (lit "Name") (lit "Name") 100 (lit "Acme"))
    as (doc' & Hdoc' & _).
  - discriminate.
  - reflexivity.
  - reflexivity.
  - apply plain_document_by_forallb. reflexivity.
  - exists doc'. split; [exact Hdoc'|].
    assert (replace_placeholders doc [(lit "Name", lit "Acme")]
              [(lit "Name", (Some (lit "Name"), 100))]
            = Some (with_store doc [plain_run "Acme and {{Name}}"; plain_run "To: Acme";
                                    plain_run "Acme and Acme"], {[ lit "Name" ]}))
      as Hrun by (vm_compute; reflexivity).
    rewrite Hrun in Hdoc'. injection Hdoc' as <- _. reflexivity.
Defined.





(** ** Malformed braces *)

Lemma marker_needs_two_open_braces (t s : str) :
  occurs_in (placeholder_text t) s -> occurs_in [open_brace; open_brace] s.
Proof.
  intros (A & B & ->). exists A, (t ++ [close_brace; close_brace] ++ B).
  unfold placeholder_text. rewrite <- !app_assoc. reflexivity.
Qed.

Lemma repeat_replace_zero_visits (data : dict str str) (mapping : mapping_t)
    (p p' : paragraph) :
  substitute_paragraph data mapping 0 p = Some p' -> p' = p.
Proof.
  induction mapping as [|[t [c sc]] rest IH]; simpl; [congruence|].
  destruct (truthy c); [|exact IH].
  destruct (c ≫= dict_get data) as [value|]; [exact IH | discriminate].
Qed.

Lemma substitute_paragraph_without_markers (data : dict str str) (mapping : mapping_t)
    (n : nat) (p p' : paragraph) :
  str_in [open_brace; open_brace] (paragraph_text p) = false ->
  substitute_paragraph data mapping n p = Some p' -> p' = p.
Proof.
  intros Hp. induction mapping as [|[t [c sc]] rest IH]; simpl; [congruence|].
  destruct (truthy c); [|exact IH].
  destruct (c ≫= dict_get data) as [value|]; [|discriminate].
  rewrite repeat_replace_absent; [exact IH|].
  intros Hocc. apply marker_needs_two_open_braces, str_in_spec in Hocc. congruence.
Qed.

Lemma with_store_same (doc : document) : with_store doc (store doc) = doc.
Proof. destruct doc. reflexivity. Qed.

(** A document whose paragraphs have no two opening braces in a row goes
    through the first loop of [replace_placeholders] unchanged. *)
Lemma substitute_all_without_markers (doc doc' : document) (data : dict str str)
    (mapping : mapping_t) :
  Forall (fun p => str_in [open_brace; open_brace] (paragraph_text p) = false) (store doc) ->
  substitute_all doc data mapping = Some doc' ->
  doc' = doc.
Proof.
  intros Hps Hsub.
  destruct (substitute_all_lookup _ _ _ _ Hsub) as [(_ & _ & _ & Hlen) Hlook].
  apply substitute_all_inv in Hsub as (st' & _ & ->). simpl in *.
  transitivity (with_store doc (store doc)); [|apply with_store_same].
  unfold with_store. f_equal.
  apply list_eq. intros r. destruct (store doc !! r) as [p|] eqn:Hp.
  - destruct (Hlook r p Hp) as (p' & Hp' & Hsub). etrans; [exact Hp'|]. f_equal.
    apply (substitute_paragraph_without_markers data mapping (visits doc r)); [|exact Hsub].
    exact (proj1 (Forall_lookup _ _) Hps _ _ Hp).
  - apply lookup_ge_None. apply lookup_ge_None in Hp. lia.
Qed.

(** C5, at its two examples: for the text [Price: {5} units] the report is
    the one string [{5}], and no substitution changes the paragraph; for
    the text [{{name}}], a marker and nothing else, the report holds the
    two strings [{{name}] and [}]. *)
Theorem find_invalid_braces_examples :
  find_invalid_braces (body_only [plain_run "Price: {5} units"]) = {[ lit "{5}" ]}
  /\ (forall data mapping,
        match replace_placeholders (body_only [plain_run "Price: {5} units"]) data mapping with
        | Some (doc', _) => doc' = body_only [plain_run "Price: {5} units"]
        | None => True
        end)
  /\ find_invalid_braces (body_only [plain_run "{{name}}"]) = {[ lit "{{name}"; lit "}" ]}.
Proof.
  split; [vm_compute; reflexivity|]. split; [|vm_compute; reflexivity].
  intros data mapping. unfold replace_placeholders.
  destruct (substitute_all _ data mapping) as [doc'|] eqn:Hsub; [|exact I].
  apply (substitute_all_without_markers _ doc' data mapping); [|exact Hsub].
  constructor; [vm_compute; reflexivity | constructor].
Qed.

(** ** [replace_placeholders] and [generate_documents] *)

Lemma replace_placeholders_none (doc : document) (data : dict str str) (mapping : mapping_t) :
  replace_placeholders doc data mapping = None
  <-> substitute_store doc data mapping (store doc) = None.
Proof.
  unfold replace_placeholders, substitute_all.
  destruct (substitute_store doc data mapping (store doc)); simpl; split; congruence.
Qed.

Lemma substitute_store_missing (doc : document) (data : dict str str) (mapping : mapping_t)
    (st : list paragraph) :
  missing_value data mapping -> substitute_store doc data mapping st = None.
Proof.
  intros (t & c & sc & Hin & Hc & Hget).
  revert st; induction mapping as [|[t0 [c0 sc0]] rest IH]; intros st; [inversion Hin|].
  simpl. apply elem_of_cons in Hin as [[= <- <- <-] | Hin].
  - destruct c as [|a c]; [congruence|]. simpl. rewrite Hget. reflexivity.
  - destruct (truthy c0); [|exact (IH Hin st)].
    destruct (c0 ≫= dict_get data) as [value|]; [|reflexivity].
    destruct (replace_everywhere doc (placeholder_text t0) value st) as [st'|];
      [exact (IH Hin st') | reflexivity].
Qed.

Lemma replace_placeholders_missing (doc : document) (data : dict str str)
    (mapping : mapping_t) :
  missing_value data mapping -> replace_placeholders doc data mapping = None.
Proof. intros H. apply replace_placeholders_none, substitute_store_missing, H. Qed.

Lemma replace_placeholders_none_plain (doc : document) (data : dict str str)
    (mapping : mapping_t) :
  plain_document doc -> plain_values data mapping ->
  replace_placeholders doc data mapping = None -> missing_value data mapping.
Proof.
  intros Hdoc Hval. rewrite replace_placeholders_none.
  apply (proj1 (substitute_store_plain doc data mapping (store doc) Hdoc Hval)).
Qed.

(** X4: [replace_placeholders] fails whenever some entry of the mapping has
    a non-empty column for which the row has no value (the [KeyError] of
    [data[column]]); the document plays no part in it: the entry fails the
    pass even when its marker is nowhere in the template. On a document of
    plain texts and a row whose values for the columns of the mapping are
    plain, it fails in no other case. *)
Theorem replace_placeholders_fails_iff (doc : document) (data : dict str str)
    (mapping : mapping_t) :
  (missing_value data mapping -> replace_placeholders doc data mapping = None)
  /\ (plain_document doc -> plain_values data mapping ->
      replace_placeholders doc data mapping = None -> missing_value data mapping).
Proof.
  split; [apply replace_placeholders_missing | apply replace_placeholders_none_plain].
Qed.

Lemma replace_placeholders_fails_iff_witness :
  replace_placeholders (body_only [plain_run "Dear customer"]) [(lit "Name", lit "Acme")]
    [(lit "Name", (Some (lit "Name"), 100)); (lit "Code", (Some (lit "Code"), 90))] = None.
Proof.
  apply (proj1 (replace_placeholders_fails_iff (body_only [plain_run "Dear customer"])
                  [(lit "Name", lit "Acme")]
                  [(lit "Name", (Some (lit "Name"), 100));
                   (lit "Code", (Some (lit "Code"), 90))])).
  exists (lit "Code"), (lit "Code"), 90. split; [right; left|].
  split; [discriminate | reflexivity].
Defined.

(** The other failure: the row has a value for the column, and the value
    holds a character that a run cannot hold (the [ValueError] of the
    assignment to [run.text]); it fails the pass only where the marker
    is. *)
Lemma control_character_fails :
  replace_placeholders (body_only [plain_run "{{Name}}"]) [(lit "Name", [65; 11; 66]%N)]
    [(lit "Name", (Some (lit "Name"), 100))] = None
  /\ replace_placeholders (body_only [plain_run "Dear customer"]) [(lit "Name", [65; 11; 66]%N)]
       [(lit "Name", (Some (lit "Name"), 100))]
     = Some (body_only [plain_run "Dear customer"], ∅).
Proof. split; vm_compute; reflexivity. Qed.

Lemma lookup_same_length {A} (l l' : list A) (i : nat) :
  length l' = length l -> l !! i = None -> l' !! i = None.
Proof. intros Hlen H. apply lookup_ge_None. apply lookup_ge_None in H. lia. Qed.

Lemma omap_fmap_pointwise {A B} (f g : ref -> option A) (h : A -> B) (refs : list ref) :
  (forall r, h <$> f r = h <$> g r) ->
  h <$> omap f refs = h <$> omap g refs.
Proof.
  intros Hfg. induction refs as [|r refs IH]; [reflexivity|].
  simpl. pose proof (Hfg r) as Hr.
  destruct (f r), (g r); simpl in *; try discriminate; [|exact IH].
  injection Hr as Hr. exact (f_equal2 cons Hr IH).
Qed.

Lemma visited_refs_with_store (doc : document) (st : list paragraph) :
  visited_refs (with_store doc st) = visited_refs doc.
Proof. reflexivity. Qed.

(** X5: when [replace_placeholders] returns, the visited paragraphs of the
    output are as many as in the input and each has the runs it had, with
    their formatting, in the same order; the tables of the output, with
    the tables nested inside their cells, are the ones of the input; and a
    paragraph that the traversal does not reach is untouched. *)
Theorem replace_placeholders_keeps_structure (doc doc' : document) (data : dict str str)
    (mapping : mapping_t) (unreplaced : gset str) :
  replace_placeholders doc data mapping = Some (doc', unreplaced) ->
  formats_of <$> visited_paragraphs doc' = formats_of <$> visited_paragraphs doc
  /\ tables doc' = tables doc
  /\ forall r, r ∉ visited_refs doc -> store doc' !! r = store doc !! r.
Proof.
  unfold replace_placeholders.
  destruct (substitute_all doc data mapping) as [d|] eqn:Hsub; [|discriminate].
  intros [= <- _].
  destruct (substitute_all_lookup _ _ _ _ Hsub) as [(_ & Htab & _ & Hlen) Hlook].
  split; [|split; [exact Htab|]].
  - apply substitute_all_inv in Hsub as (st' & _ & ->).
    unfold visited_paragraphs. rewrite visited_refs_with_store.
    apply omap_fmap_pointwise. intros r. simpl in *.
    destruct (store doc !! r) as [p|] eqn:Hp.
    + destruct (Hlook r p Hp) as (p' & -> & Hp'). simpl. f_equal.
      exact (substitute_paragraph_formats _ _ _ _ _ Hp').
    + exact (f_equal (fmap formats_of) (lookup_same_length _ _ _ Hlen Hp)).
  - intros r Hr. destruct (store doc !! r) as [p|] eqn:Hp.
    + destruct (Hlook r p Hp) as (p' & -> & Hp'). f_equal.
      unfold visits in Hp'. rewrite (proj1 (count_occ_not_In Nat.eq_dec _ _)) in Hp'.
      * exact (repeat_replace_zero_visits _ _ _ _ Hp').
      * intros Hin. apply Hr, list_elem_of_In, Hin.
    + exact (lookup_same_length _ _ _ Hlen Hp).
Qed.

Lemma replace_placeholders_keeps_structure_witness :
  let doc := Document [Paragraph [Run (lit "Dear {{") 1; Run (lit "Name}},") 2];
                       plain_run "{{Name}}"; plain_run "{{Name}}"; plain_run "{{Name}}"]
               [0%nat]
               [Table [[Cell [1%nat] [Table [[Cell [2%nat] []]]]]]]
               [DocSection [3%nat] []] in
  exists doc' unreplaced,
    replace_placeholders doc [(lit "Name", lit "Acme")]
      [(lit "Name", (Some (lit "Name"), 100))] = Some (doc', unreplaced)
    /\ formats_of <$> visited_paragraphs doc' = formats_of <$> visited_paragraphs doc
    /\ store doc' !! 2%nat = Some (plain_run "{{Name}}").
Proof.
  intros doc.
  destruct (replace_placeholders doc [(lit "Name", lit "Acme")]
              [(lit "Name", (Some (lit "Name"), 100))]) as [[doc' unreplaced]|] eqn:Hrun;
    [|vm_compute in Hrun; discriminate].
  exists doc', unreplaced. split; [reflexivity|].
  destruct (replace_placeholders_keeps_structure doc doc' _ _ unreplaced Hrun)
    as (Hfmt & _ & Hrest).
  split; [exact Hfmt|].
  assert (2%nat ∉ visited_refs doc) as Hnot.
  { intros Hin. vm_compute in Hin.
    repeat (apply elem_of_cons in Hin as [Hin | Hin]; [discriminate|]).
    inversion Hin. }
  exact (Hrest 2%nat Hnot).
Defined.

Lemma substitute_store_filter (doc : document) (data : dict str str) (mapping : mapping_t)
    (st : list paragraph) :
  substitute_store doc data mapping st
  = substitute_store doc data
      (List.filter (fun item : str * (option str * Z) => truthy (fst (snd item))) mapping) st.
Proof.
  revert st; induction mapping as [|[t [c sc]] rest IH]; intros st; [reflexivity|].
  simpl. destruct (truthy c) eqn:Hc; simpl; rewrite ?Hc.
  - destruct (c ≫= dict_get data); [|reflexivity].
    destruct (replace_everywhere doc (placeholder_text t) s st); [apply IH | reflexivity].
  - apply IH.
Qed.

(** X6: the entries of the mapping without a column, [None] or the empty
    text, play no part: [replace_placeholders] gives the same result, or
    fails the same way, on the mapping without them. With no other entry it
    returns the document as it was, whatever the row holds. *)
Theorem replace_placeholders_ignores_unmapped (doc : document) (data : dict str str)
    (mapping : mapping_t) :
  replace_placeholders doc data mapping
  = replace_placeholders doc data
      (List.filter (fun item : str * (option str * Z) => truthy (fst (snd item))) mapping)
  /\ (List.filter (fun item : str * (option str * Z) => truthy (fst (snd item))) mapping = []
      -> replace_placeholders doc data mapping = Some (doc, extract_placeholders doc)).
Proof.
  unfold replace_placeholders, substitute_all.
  rewrite (substitute_store_filter doc data mapping).
  split; [reflexivity|]. intros ->. simpl. rewrite with_store_same. reflexivity.
Qed.

Lemma replace_placeholders_ignores_unmapped_witness :
  replace_placeholders (body_only [plain_run "{{Code}} / {{Name}}"]) []
    [(lit "Code", (None, 0)); (lit "Name", (Some [], 90))]
  = Some (body_only [plain_run "{{Code}} / {{Name}}"],
          extract_placeholders (body_only [plain_run "{{Code}} / {{Name}}"])).
Proof.
  apply (proj2 (replace_placeholders_ignores_unmapped
                  (body_only [plain_run "{{Code}} / {{Name}}"]) []
                  [(lit "Code", (None, 0)); (lit "Name", (Some [], 90))])).
  reflexivity.
Defined.

Lemma generate_document_none (df : dataframe) (template : document)
    (mapping : mapping_t) (row : dict str str) :
  generate_document df template mapping row = None
  <-> replace_placeholders template row mapping = None.
Proof.
  unfold generate_document.
  destruct (replace_placeholders template row mapping) as [[d u]|]; split; congruence.
Qed.

Lemma generate_rows_length (df : dataframe) (template : document) (mapping : mapping_t)
    (rs : list (dict str str)) (results : list row_result) :
  generate_rows df template mapping rs = Some results ->
  length results = length rs /\ row_data <$> results = rs.
Proof.
  revert results; induction rs as [|row rs IH]; intros results; simpl.
  - intros [= <-]. split; reflexivity.
  - unfold generate_document at 1.
    destruct (replace_placeholders template row mapping) as [[d u]|]; [|discriminate].
    destruct (generate_rows df template mapping rs) as [rest|]; [|discriminate].
    intros [= <-]. destruct (IH rest eq_refl) as [Hlen Hrows].
    split; [simpl; rewrite Hlen; reflexivity | rewrite fmap_cons, Hrows; reflexivity].
Qed.

Lemma generate_rows_missing (df : dataframe) (template : document) (mapping : mapping_t)
    (rs : list (dict str str)) :
  (exists row, row ∈ rs /\ missing_value row mapping) ->
  generate_rows df template mapping rs = None.
Proof.
  intros (row & Hin & Hmiss). induction rs as [|row0 rs IH]; [inversion Hin|].
  simpl. apply elem_of_cons in Hin as [<- | Hin].
  - rewrite (proj2 (generate_document_none df template mapping row)
               (replace_placeholders_missing template row mapping Hmiss)).
    reflexivity.
  - destruct (generate_document df template mapping row0); [|reflexivity].
    rewrite (IH Hin). reflexivity.
Qed.

Lemma generate_rows_none_plain (df : dataframe) (template : document) (mapping : mapping_t)
    (rs : list (dict str str)) :
  plain_document template ->
  (forall row, row ∈ rs -> plain_values row mapping) ->
  generate_rows df template mapping rs = None ->
  exists row, row ∈ rs /\ missing_value row mapping.
Proof.
  intros Htemplate. induction rs as [|row rs IH]; intros Hrows; simpl; [discriminate|].
  destruct (generate_document df template mapping row) as [r|] eqn:Hrow.
  - destruct (generate_rows df template mapping rs) as [rest|]; [discriminate|].
    intros _. destruct IH as (row' & Hin & Hmiss);
      [intros row' Hin; apply Hrows; right; exact Hin | reflexivity |].
    exists row'. split; [right; exact Hin | exact Hmiss].
  - intros _. exists row. split; [left|].
    apply (replace_placeholders_none_plain template row mapping Htemplate);
      [apply Hrows; left | exact (proj1 (generate_document_none df template mapping row) Hrow)].
Qed.

(** X7: [generate_documents] fails whenever some row of the table has no
    value for a non-empty column of the mapping; with a template of plain
    texts and rows whose values for the columns of the mapping are plain,
    it fails in no other case, so never for a table without rows. When it
    returns, there is one result per row, in the order of the rows, each
    carrying its row. *)
Theorem generate_documents_fails_iff (df : dataframe) (template : document)
    (mapping : mapping_t) :
  ((exists row, row ∈ rows df /\ missing_value row mapping) ->
   generate_documents df template mapping = None)
  /\ (plain_document template ->
      (forall row, row ∈ rows df -> plain_values row mapping) ->
      generate_documents df template mapping = None ->
      exists row, row ∈ rows df /\ missing_value row mapping)
  /\ (forall results, generate_documents df template mapping = Some results ->
        length results = length (rows df) /\ row_data <$> results = rows df).
Proof.
  split; [apply generate_rows_missing|].
  split; [apply generate_rows_none_plain | intros results; apply generate_rows_length].
Qed.

Lemma generate_documents_fails_iff_witness :
  generate_documents
    (DataFrame [lit "Name"] [[(lit "Name", lit "Acme")]; []])
    (body_only [plain_run "Dear {{Name}}"])
    [(lit "Name", (Some (lit "Name"), 100))] = None.
Proof.
  apply (proj1 (generate_documents_fails_iff
                  (DataFrame [lit "Name"] [[(lit "Name", lit "Acme")]; []])
                  (body_only [plain_run "Dear {{Name}}"])
                  [(lit "Name", (Some (lit "Name"), 100))])).
  exists []. split; [right; left|].
  exists (lit "Name"), (lit "Name"), 100. split; [left|]. split; [discriminate | reflexivity].
Defined.

(** ** Unused columns *)

Lemma used_columns_of_spec (mapping : mapping_t) (replaced : gset str) (c : str) :
  c ∈ used_columns_of mapping replaced <->
  exists t sc, t ∈ replaced /\ dict_get mapping t = Some (Some c, sc) /\ c <> [].
Proof.
  unfold used_columns_of. rewrite elem_of_list_to_set, list_elem_of_omap. split.
  - intros (t & Ht & Hc). apply elem_of_elements in Ht.
    destruct (dict_get mapping t) as [[[col|] sc]|] eqn:Hget; try discriminate.
    destruct col as [|a col]; simpl in Hc; [discriminate|]. injection Hc as <-.
    exists t, sc. split; [exact Ht|]. split; [exact Hget | discriminate].
  - intros (t & sc & Ht & Hget & Hc). exists t. split; [apply elem_of_elements; exact Ht|].
    rewrite Hget. destruct c; [congruence | reflexivity].
Qed.

Lemma generate_document_inv (df : dataframe) (template : document) (mapping : mapping_t)
    (row : dict str str) (r : row_result) :
  generate_document df template mapping row = Some r ->
  row_data r = row
  /\ replace_placeholders template row mapping = Some (output r, unreplaced r)
  /\ invalid_braces r = find_invalid_braces (output r)
  /\ replaced_placeholders r = list_to_set (dict_keys mapping) ∖ unreplaced r
  /\ unused_columns r
     = list_to_set (columns df) ∖ used_columns_of mapping (replaced_placeholders r).
Proof.
  unfold generate_document.
  destruct (replace_placeholders template row mapping) as [[d u]|]; [|discriminate].
  intros [= <-]. simpl. repeat split; reflexivity.
Qed.

Lemma generate_document_spec (df : dataframe) (template : document) (mapping : mapping_t)
    (row : dict str str) :
  plain_document template -> row_covers row mapping -> plain_values row mapping ->
  exists r, generate_document df template mapping row = Some r.
Proof.
  intros Htemplate Hcov Hval. unfold generate_document.
  destruct (substitute_all_total template row mapping Htemplate Hval Hcov) as (doc' & Hdoc' & _).
  rewrite (replace_placeholders_of_substitute _ _ _ _ Hdoc').
  eexists. reflexivity.
Qed.

Lemma generate_rows_total (df : dataframe) (template : document) (mapping : mapping_t)
    (rs : list (dict str str)) :
  plain_document template ->
  (forall row, row ∈ rs -> row_covers row mapping /\ plain_values row mapping) ->
  exists results, generate_rows df template mapping rs = Some results.
Proof.
  intros Htemplate. induction rs as [|row rs IH]; intros Hrows.
  - exists []. reflexivity.
  - destruct IH as (results & Hres); [intros r Hr; apply Hrows; right; exact Hr|].
    destruct (Hrows row) as [Hcov Hval]; [left|].
    destruct (generate_document_spec df template mapping row Htemplate Hcov Hval)
      as (r0 & Hr0).
    exists (r0 :: results). simpl. rewrite Hr0, Hres. reflexivity.
Qed.

(** C8: when the template has plain texts and every row has plain values
    for the columns the mapping uses, [generate_documents] returns. Whenever
    it returns, there is one result per row, in the order of the rows. The
    result of a row carries the row; its document and its unreplaced tokens
    are what [replace_placeholders] returns for the template and the row,
    the unreplaced tokens being those the pattern finds in the paragraphs
    that the traversal reaches in the output; its replaced placeholders are
    the keys of the mapping that are not among the unreplaced tokens; and
    its unused columns are the columns of the table that are not the
    non-empty column of a replaced placeholder. *)
Theorem unused_columns_accounting (df : dataframe) (template : document)
    (mapping : mapping_t) :
  (plain_document template ->
   (forall row, row ∈ rows df -> row_covers row mapping /\ plain_values row mapping) ->
   exists results, generate_documents df template mapping = Some results)
  /\ forall results,
       generate_documents df template mapping = Some results ->
       length results = length (rows df)
       /\ forall i row, rows df !! i = Some row ->
            exists r, results !! i = Some r
              /\ row_data r = row
              /\ replace_placeholders template row mapping = Some (output r, unreplaced r)
              /\ (forall t, t ∈ unreplaced r <->
                    exists p, p ∈ visited_paragraphs (output r)
                              /\ t ∈ findall_placeholders (paragraph_text p))
              /\ replaced_placeholders r = list_to_set (dict_keys mapping) ∖ unreplaced r
              /\ forall c, c ∈ unused_columns r <->
                   c ∈ columns df
                   /\ ~ exists t sc, t ∈ replaced_placeholders r
                                     /\ dict_get mapping t = Some (Some c, sc) /\ c <> [].
Proof.
  split; [apply generate_rows_total|].
  unfold generate_documents. induction (rows df) as [|row rs IH]; intros results; simpl.
  - intros [= <-]. split; [reflexivity|]. intros i row Hi. inversion Hi.
  - destruct (generate_document df template mapping row) as [r0|] eqn:Hr0; [|discriminate].
    destruct (generate_rows df template mapping rs) as [rest|]; [|discriminate].
    intros [= <-]. destruct (IH rest eq_refl) as [Hlen Hall].
    split; [simpl; rewrite Hlen; reflexivity|].
    intros [|i] row' Hi; [|exact (Hall i row' Hi)].
    injection Hi as <-.
    destruct (generate_document_inv df template mapping row r0 Hr0)
      as (Hdata & Hrun & _ & Hrep & Hunused).
    exists r0. split; [reflexivity|]. split; [exact Hdata|].
    split; [exact Hrun|]. split.
    + intros t. unfold replace_placeholders in Hrun.
      destruct (substitute_all template row mapping) as [d|]; [|discriminate].
      injection Hrun as Hd Hu. rewrite <- Hu, Hd. apply scan_document_spec.
    + split; [exact Hrep|]. intros c.
      rewrite Hunused, elem_of_difference, elem_of_list_to_set, used_columns_of_spec.
      reflexivity.
Qed.

(** The columns [A], [B], [C], with the tokens [A] and [B] mapped and the
    marker of [A] twice in the paragraph: the second marker of [A] stays,
    so [A] is unreplaced, [B] is replaced, and [A] and [C] are reported
    unused. *)
Lemma unused_columns_accounting_witness :
  let df := DataFrame [lit "A"; lit "B"; lit "C"]
              [[(lit "A", lit "1"); (lit "B", lit "2"); (lit "C", lit "3")]] in
  let template := body_only [plain_run "{{A}} / {{B}} / {{A}}"] in
  let mapping := [(lit "A", (Some (lit "A"), 100)); (lit "B", (Some (lit "B"), 100))] in
  exists r,
    generate_documents df template mapping = Some [r]
    /\ output r = body_only [plain_run "1 / 2 / {{A}}"]
    /\ unreplaced r = {[ lit "A" ]}
    /\ replaced_placeholders r = {[ lit "B" ]}
    /\ unused_columns r = {[ lit "A"; lit "C" ]}.
Proof.
  intros df template mapping.
  destruct (unused_columns_accounting df template mapping) as [Htotal Hacc].
  destruct Htotal as (results & Hres).
  - apply plain_document_by_forallb. reflexivity.
  - intros row Hrow. apply list_elem_of_singleton in Hrow as ->. split.
    + intros t c sc Hin _.
      repeat (apply elem_of_cons in Hin as [Hin | Hin];
              [injection Hin as _ -> _; eexists; reflexivity|]).
      inversion Hin.
    + intros t c sc v Hin Hget.
      repeat (apply elem_of_cons in Hin as [Hin | Hin];
              [injection Hin as _ -> _; injection Hget as <-; reflexivity|]).
      inversion Hin.
  - destruct (Hacc results Hres) as [Hlen Hall].
    destruct (Hall 0%nat _ eq_refl) as (r & Hr & _).
    destruct results as [|r0 [|r1 rest]]; try discriminate. injection Hr as ->.
    exists r. split; [exact Hres|].
    assert (generate_documents df template mapping
            = Some [RowResult (body_only [plain_run "1 / 2 / {{A}}"]) {[ lit "B" ]}
                      {[ lit "A" ]} {[ lit "A"; lit "C" ]} {[ lit "{{A}"; lit "}" ]}
                      [(lit "A", lit "1"); (lit "B", lit "2"); (lit "C", lit "3")]]) as Hgen
      by (vm_compute; reflexivity).
    rewrite Hgen in Hres. injection Hres as <-. repeat split; reflexivity.
Defined.

(** ** The two scanners *)

Lemma m_char_inv (cls : char -> bool) (k : matcher) (s m : str) :
  m_char cls k s = Some m ->
  exists c t m', s = c :: t /\ cls c = true /\ k t = Some m' /\ m = c :: m'.
Proof.
  unfold m_char. destruct s as [|c t]; [discriminate|].
  destruct (cls c) eqn:Hc; [|discriminate].
  destruct (k t) as [m'|] eqn:Hk; [|discriminate].
  intros [= <-]. exists c, t, m'. auto.
Qed.

Lemma m_star_greedy_inv (cls : char -> bool) (k : matcher) (s m : str) :
  m_star_greedy cls k s = Some m ->
  exists pre post m', s = pre ++ post /\ Forall (fun c => cls c = true) pre
                      /\ k post = Some m' /\ m = pre ++ m'.
Proof.
  revert m; induction s as [|c t IH]; intros m; simpl.
  - intros H. exists [], [], m. auto.
  - destruct (cls c) eqn:Hc.
    + destruct (m_star_greedy cls k t) as [m0|].
      * intros [= <-]. destruct (IH m0 eq_refl) as (pre & post & m' & -> & Hpre & Hk & ->).
        exists (c :: pre), post, m'. auto.
      * intros H. exists [], (c :: t), m. auto.
    + intros H. exists [], (c :: t), m. auto.
Qed.

Lemma m_star_lazy_inv (cls : char -> bool) (k : matcher) (s m : str) :
  m_star_lazy cls k s = Some m ->
  exists pre post m', s = pre ++ post /\ Forall (fun c => cls c = true) pre
                      /\ k post = Some m' /\ m = pre ++ m'.
Proof.
  revert m; induction s as [|c t IH]; intros m; simpl.
  - destruct (k []) as [m0|] eqn:Hk; [|discriminate].
    intros [= <-]. exists [], [], m0. auto.
  - destruct (k (c :: t)) as [m0|] eqn:Hk.
    + intros [= <-]. exists [], (c :: t), m0. auto.
    + destruct (cls c) eqn:Hc; [|discriminate].
      destruct (m_star_lazy cls k t) as [m1|]; [|discriminate].
      intros [= <-]. destruct (IH m1 eq_refl) as (pre & post & m' & -> & Hpre & Hk' & ->).
      exists (c :: pre), post, m'. auto.
Qed.

(** Every match of the scan is the match of the pattern at some place of
    the text. *)
Lemma scan_matches_elem (pat : option char -> matcher) (prev : option char) (skip : nat)
    (s m : str) :
  m ∈ scan_matches pat prev skip s ->
  exists prev' pre post, s = pre ++ post /\ pat prev' post = Some m.
Proof.
  revert prev skip; induction s as [|c t IH]; intros prev skip; simpl.
  - intros H. inversion H.
  - destruct skip as [|k].
    + destruct (pat prev (c :: t)) as [m0|] eqn:Hpat.
      * intros H. apply elem_of_cons in H as [-> | H].
        -- exists prev, [], (c :: t). auto.
        -- destruct (IH _ _ H) as (prev' & pre & post & -> & Hm).
           exists prev', (c :: pre), post. auto.
      * intros H. destruct (IH _ _ H) as (prev' & pre & post & -> & Hm).
        exists prev', (c :: pre), post. auto.
    + intros H. destruct (IH _ _ H) as (prev' & pre & post & -> & Hm).
      exists prev', (c :: pre), post. auto.
Qed.

Lemma placeholder_pattern_inv (prev : option char) (s m : str) :
  placeholder_pattern prev s = Some m ->
  exists body rest, m = placeholder_text body /\ s = m ++ rest
                    /\ body <> [] /\ (newline ∉ body).
Proof.
  unfold placeholder_pattern. intros H.
  apply m_char_inv in H as (c1 & s1 & m1 & -> & Hc1 & H & ->).
  apply m_char_inv in H as (c2 & s2 & m2 & -> & Hc2 & H & ->).
  apply m_char_inv in H as (c3 & s3 & m3 & -> & Hc3 & H & ->).
  apply m_star_lazy_inv in H as (pre & post & m4 & -> & Hpre & H & ->).
  apply m_char_inv in H as (c4 & s4 & m5 & -> & Hc4 & H & ->).
  apply m_char_inv in H as (c5 & s5 & m6 & -> & Hc5 & H & ->).
  injection H as <-.
  apply N.eqb_eq in Hc1, Hc2, Hc4, Hc5. subst.
  exists (c3 :: pre), s5. split; [|split; [|split]].
  - unfold placeholder_text. simpl. reflexivity.
  - simpl. rewrite <- app_assoc. reflexivity.
  - discriminate.
  - intros Hin. apply elem_of_cons in Hin as [<- | Hin]; [discriminate|].
    rewrite Forall_forall in Hpre. specialize (Hpre _ Hin). discriminate.
Qed.

(** X8: a token that [extract_placeholders] returns is not empty, holds no
    newline, and its marker, the token between two opening and two closing
    braces, occurs in the text of a visited paragraph. The same holds for
    the tokens [replace_placeholders] reports as unreplaced, in the output
    document. *)
Theorem extracted_tokens_occur (doc : document) (t : str) :
  t ∈ extract_placeholders doc ->
  t <> [] /\ (newline ∉ t)
  /\ exists p, p ∈ visited_paragraphs doc
               /\ occurs_in (placeholder_text t) (paragraph_text p).
Proof.
  intros Ht. apply scan_document_spec in Ht as (p & Hp & Ht).
  unfold findall_placeholders in Ht.
  apply list_elem_of_fmap in Ht as (m & -> & Hm).
  apply scan_matches_elem in Hm as (prev' & pre & post & Htext & Hm).
  apply placeholder_pattern_inv in Hm as (body & rest & -> & -> & Hne & Hnl).
  rewrite group1_of_marker. split; [exact Hne|]. split; [exact Hnl|].
  exists p. split; [exact Hp|]. exists pre, rest. exact Htext.
Qed.

Lemma extracted_tokens_occur_witness :
  lit "Name" <> [] /\ (newline ∉ lit "Name")
  /\ exists p, p ∈ visited_paragraphs
                     (body_only [Paragraph [Run (lit "Dear {{Na") 1; Run (lit "me}},") 2]])
               /\ occurs_in (placeholder_text (lit "Name")) (paragraph_text p).
Proof.
  apply (extracted_tokens_occur
           (body_only [Paragraph [Run (lit "Dear {{Na") 1; Run (lit "me}},") 2]])
           (lit "Name")).
  vm_compute. reflexivity.
Defined.

Lemma invalid_pattern_inv (prev : option char) (s m : str) :
  invalid_pattern prev s = Some m ->
  close_brace ∈ m /\ exists rest, s = m ++ rest.
Proof.
  unfold invalid_pattern, m_alt.
  assert (forall s m,
             m_char is_open (m_star_greedy (fun c => negb (is_close c))
                               (m_char is_close m_end)) s = Some m ->
             close_brace ∈ m /\ exists rest, s = m ++ rest) as Hfirst.
  { clear. intros s m H.
    apply m_char_inv in H as (c1 & s1 & m1 & -> & _ & H & ->).
    apply m_star_greedy_inv in H as (pre & post & m2 & -> & _ & H & ->).
    apply m_char_inv in H as (c2 & s2 & m3 & -> & Hc2 & H & ->).
    injection H as <-. apply N.eqb_eq in Hc2. subst c2. split.
    - right. apply elem_of_app. right. left.
    - exists s2. simpl. rewrite <- app_assoc. reflexivity. }
  assert (forall s m,
             m_star_greedy (fun c => negb (is_open c))
               (m_char is_close (m_star_greedy (fun c => negb (is_open c)) m_end)) s
             = Some m ->
             close_brace ∈ m /\ exists rest, s = m ++ rest) as Hsecond.
  { clear. intros s m H.
    apply m_star_greedy_inv in H as (pre & post & m1 & -> & _ & H & ->).
    apply m_char_inv in H as (c & s1 & m2 & -> & Hc & H & ->).
    apply m_star_greedy_inv in H as (pre2 & post2 & m3 & -> & _ & H & ->).
    injection H as <-. apply N.eqb_eq in Hc. subst c. split.
    - apply elem_of_app. right. left.
    - exists post2. rewrite app_nil_r, <- app_assoc. reflexivity. }
  destruct prev as [c|].
  - destruct (is_open c).
    + apply Hsecond.
    + destruct (m_char is_open _ s) as [m0|] eqn:H1.
      * intros [= <-]. apply (Hfirst _ _ H1).
      * apply Hsecond.
  - destruct (m_char is_open _ s) as [m0|] eqn:H1.
    + intros [= <-]. apply (Hfirst _ _ H1).
    + apply Hsecond.
Qed.

(** X9: every string [find_invalid_braces] reports holds a closing brace
    and occurs in the text of a visited paragraph. A paragraph with opening
    braces only is never reported. *)
Theorem invalid_braces_hold_closing_brace (doc : document) (x : str) :
  x ∈ find_invalid_braces doc ->
  close_brace ∈ x
  /\ exists p, p ∈ visited_paragraphs doc /\ occurs_in x (paragraph_text p).
Proof.
  intros Hx. apply scan_document_spec in Hx as (p & Hp & Hx).
  unfold findall_invalid in Hx.
  apply scan_matches_elem in Hx as (prev' & pre & post & Htext & Hm).
  apply invalid_pattern_inv in Hm as (Hclose & rest & ->).
  split; [exact Hclose|]. exists p. split; [exact Hp|]. exists pre, rest. exact Htext.
Qed.

Lemma invalid_braces_hold_closing_brace_witness :
  close_brace ∈ lit "{5}"
  /\ exists p, p ∈ visited_paragraphs (body_only [plain_run "Price: {5} units"])
               /\ occurs_in (lit "{5}") (paragraph_text p).
Proof.
  apply (invalid_braces_hold_closing_brace (body_only [plain_run "Price: {5} units"]) (lit "{5}")).
  vm_compute. reflexivity.
Defined.

Lemma m_star_greedy_end (cls : char -> bool) (s : str) :
  exists m, m_star_greedy cls m_end s = Some m.
Proof.
  induction s as [|c t [m IH]]; simpl; [exists []; reflexivity|].
  rewrite IH. destruct (cls c); eexists; reflexivity.
Qed.

Lemma invalid_pattern_at_closing_brace (prev : option char) (t : str) :
  exists m, invalid_pattern prev (close_brace :: t) = Some m.
Proof.
  unfold invalid_pattern, m_alt.
  assert (m_char is_open (m_star_greedy (fun c => negb (is_close c))
                            (m_char is_close m_end)) (close_brace :: t) = None) as ->
    by reflexivity.
  assert ((match prev with
           | Some c => if is_open c then None else None
           | None => None
           end : option str) = None) as -> by (destruct prev as [c|]; [destruct (is_open c)|]; reflexivity).
  simpl. destruct (m_star_greedy _ _ t) as [m|]; [eexists; reflexivity|].
  unfold m_char, is_close. simpl.
  destruct (m_star_greedy_end (fun c => negb (is_open c)) t) as [m ->].
  eexists. reflexivity.
Qed.

Lemma scan_invalid_finds_closing_brace (prev : option char) (s : str) :
  close_brace ∈ s -> scan_matches invalid_pattern prev 0 s <> [].
Proof.
  revert prev; induction s as [|c t IH]; intros prev Hin; [inversion Hin|].
  simpl. destruct (invalid_pattern prev (c :: t)) as [m|] eqn:Hpat; [discriminate|].
  apply elem_of_cons in Hin as [<- | Hin].
  - destruct (invalid_pattern_at_closing_brace prev t) as [m Hm]. congruence.
  - apply IH. exact Hin.
Qed.

(** X10: the report of [find_invalid_braces] is empty exactly when no
    visited paragraph holds a closing brace. So whatever closing brace is
    left after the substitution is reported, a well-formed marker included,
    and a text whose only braces are opening ones is not. *)
Theorem find_invalid_braces_empty_iff (doc : document) :
  find_invalid_braces doc = ∅
  <-> forall p, p ∈ visited_paragraphs doc -> close_brace ∉ paragraph_text p.
Proof.
  split.
  - intros Hempty p Hp Hclose.
    pose proof (scan_invalid_finds_closing_brace None _ Hclose) as Hne.
    fold (findall_invalid (paragraph_text p)) in Hne.
    destruct (findall_invalid (paragraph_text p)) as [|x xs] eqn:Hx; [congruence|].
    assert (x ∈ find_invalid_braces doc) as Hin.
    { apply scan_document_spec. exists p. split; [exact Hp|].
      fold (paragraph_text p). rewrite Hx. left. }
    rewrite Hempty in Hin. apply not_elem_of_empty in Hin. exact Hin.
  - intros Hnone. apply leibniz_equiv. apply elem_of_equiv_empty. intros x Hx.
    apply scan_document_spec in Hx as (p & Hp & Hx).
    unfold findall_invalid in Hx.
    apply scan_matches_elem in Hx as (prev' & pre & post & Htext & Hm).
    apply invalid_pattern_inv in Hm as (Hclose & rest & ->).
    apply (Hnone p Hp). unfold paragraph_text. rewrite Htext.
    apply elem_of_app. right. apply elem_of_app. left. exact Hclose.
Qed.

(** ** Normalisation *)

Lemma filter_all_true {A} (f : A -> bool) (l : list A) :
  Forall (fun c => f c = true) l -> List.filter f l = l.
Proof.
  induction 1 as [|c l Hc _ IH]; [reflexivity|]. simpl. rewrite Hc, IH. reflexivity.
Qed.

Lemma filter_Forall_true {A} (f : A -> bool) (l : list A) :
  Forall (fun c => f c = true) (List.filter f l).
Proof.
  induction l as [|c l IH]; [constructor|]. simpl.
  destruct (f c) eqn:Hc; [constructor; assumption | exact IH].
Qed.

Lemma filter_keeps_absent {A} (f : A -> bool) (l : list A) (x : A) :
  x ∉ l -> x ∉ List.filter f l.
Proof.
  intros Hx Hin. apply Hx. apply list_elem_of_In in Hin. apply filter_In in Hin as [Hin _].
  apply list_elem_of_In, Hin.
Qed.

Lemma filter_ext_Forall {A} (P : A -> Prop) (f g : A -> bool) (l : list A) :
  (forall c, P c -> f c = g c) -> Forall P l ->
  List.filter f l = List.filter g l /\ Forall P (List.filter g l).
Proof.
  intros Hfg. induction 1 as [|c l Hc _ [IH1 IH2]]; [split; [reflexivity | constructor]|].
  simpl. rewrite (Hfg c Hc), IH1. destruct (g c); auto.
Qed.

(** The rows of the excerpt. *)

Lemma tabulated_row (P : N -> bool) (c : char) :
  forallb (fun n => P (N.of_nat n)) (seq 0 256) = true -> tabulated c -> P c = true.
Proof.
  intros Hall Hc. rewrite forallb_forall in Hall.
  specialize (Hall (N.to_nat c)). rewrite N2Nat.id in Hall.
  apply Hall, in_seq. unfold tabulated in Hc. lia.
Qed.

Lemma excerpt_isalnum_rows (c : char) :
  excerpt_isalnum c = true -> tabulated c \/ c = dotted_I.
Proof.
  unfold excerpt_isalnum, in_range, tabulated, dotted_I.
  rewrite !orb_true_iff, !andb_true_iff, !N.leb_le, !N.eqb_eq. lia.
Qed.

Lemma excerpt_lower_char_beyond (c : char) :
  ~ tabulated c -> c <> dotted_I -> excerpt_lower_char c = [c].
Proof.
  unfold tabulated, excerpt_lower_char, in_range, dotted_I. intros Hc Hne.
  destruct (N.leb_spec c 90); [lia|]. destruct (N.leb_spec c 214); [lia|].
  destruct (N.leb_spec c 222); [lia|]. rewrite !andb_false_r. simpl.
  destruct (N.eqb_spec c 304); [contradiction | reflexivity].
Qed.

Lemma excerpt_lower_app (s t : str) :
  excerpt_lower (s ++ t) = excerpt_lower s ++ excerpt_lower t.
Proof. unfold excerpt_lower. apply bind_app. Qed.

Lemma excerpt_lower_cons (c : char) (s : str) :
  excerpt_lower (c :: s) = excerpt_lower_char c ++ excerpt_lower s.
Proof. reflexivity. Qed.

Lemma excerpt_lower_char_stable (c : char) :
  excerpt_lower (excerpt_lower_char c) = excerpt_lower_char c.
Proof.
  destruct (N.leb_spec c 255) as [Hc | Hc].
  - pose proof (tabulated_row
                  (fun c => bool_decide (excerpt_lower (excerpt_lower_char c)
                                         = excerpt_lower_char c)) c) as Hrow.
    apply bool_decide_eq_true in Hrow; [exact Hrow | vm_compute; reflexivity | exact Hc].
  - destruct (decide (c = dotted_I)) as [-> | Hne]; [reflexivity|].
    assert (~ tabulated c) as Hnt by (unfold tabulated; lia).
    rewrite (excerpt_lower_char_beyond c Hnt Hne), excerpt_lower_cons,
      (excerpt_lower_char_beyond c Hnt Hne). reflexivity.
Qed.

Lemma excerpt_lower_char_alnum (c : char) :
  c <> dotted_I -> excerpt_isalnum c = true ->
  Forall (fun c' => excerpt_isalnum c' = true) (excerpt_lower_char c).
Proof.
  intros Hne Hc. destruct (excerpt_isalnum_rows c Hc) as [Htab | ->]; [|congruence].
  assert (implb (excerpt_isalnum c) (forallb excerpt_isalnum (excerpt_lower_char c)) = true)
    as Himp
    by (apply (tabulated_row
                 (fun c => implb (excerpt_isalnum c)
                             (forallb excerpt_isalnum (excerpt_lower_char c))));
        [vm_compute; reflexivity | exact Htab]).
  rewrite Hc in Himp. simpl in Himp. apply Forall_forall. intros x Hx.
  rewrite forallb_forall in Himp. apply Himp, list_elem_of_In, Hx.
Qed.

(** The excerpt has the two facts of [lower_case_stable]. *)
Lemma excerpt_lower_case_stable : @lower_case_stable excerpt_tables.
Proof.
  split.
  - intros s Hs Hall. simpl in *. induction Hall as [|c s Hc _ IH]; [constructor|].
    apply not_elem_of_cons in Hs as [Hne Hs].
    rewrite excerpt_lower_cons. apply Forall_app_2; [|exact (IH Hs)].
    exact (excerpt_lower_char_alnum c (not_eq_sym Hne) Hc).
  - intros s. simpl. induction s as [|c s IH]; [reflexivity|].
    rewrite excerpt_lower_cons, excerpt_lower_app, IH, excerpt_lower_char_stable.
    reflexivity.
Qed.

Lemma excerpt_latin1_rows : @latin1_rows excerpt_tables.
Proof. split; reflexivity. Qed.

Lemma tabulated_by_forallb (s : str) :
  forallb (fun c => (c <=? 255)%N) s = true -> Forall tabulated s.
Proof.
  intros H. apply Forall_forall. intros c Hc. rewrite forallb_forall in H.
  apply N.leb_le, H, list_elem_of_In, Hc.
Qed.

Section Normalisation.

Context `{tables : unicode_tables}.

(** C7, as the code has it, for the Unicode tables of the interpreter as
    parameters: with the two facts of [lower_case_stable], normalising
    twice is normalising once for every text without U+0130. *)
Theorem normalize_text_idempotent (s : str) :
  lower_case_stable ->
  dotted_I ∉ s ->
  normalize_text (normalize_text s) = normalize_text s.
Proof.
  intros [Halnum Hlower] Hs. unfold normalize_text.
  rewrite (filter_all_true isalnum (str_lower (List.filter isalnum s))).
  - apply Hlower.
  - apply Halnum; [apply filter_keeps_absent, Hs | apply filter_Forall_true].
Qed.

(** On Basic Latin and Latin-1 the normalisation is the one of the
    excerpt. *)
Lemma normalize_text_latin1 (s : str) :
  latin1_rows -> Forall tabulated s ->
  normalize_text s = @normalize_text excerpt_tables s.
Proof.
  intros [Hal Hlo] Hs. unfold normalize_text.
  destruct (filter_ext_Forall tabulated isalnum excerpt_isalnum s Hal Hs) as [-> Htab].
  apply Hlo, Htab.
Qed.

End Normalisation.

Lemma excerpt_normalize_app (s t : str) :
  @normalize_text excerpt_tables (s ++ t)
  = @normalize_text excerpt_tables s ++ @normalize_text excerpt_tables t.
Proof. unfold normalize_text. simpl. rewrite List.filter_app. apply excerpt_lower_app. Qed.

Lemma excerpt_normalize_char (c : char) :
  tabulated c ->
  forallb (fun c' => normal_char c' && (c' <=? 255)%N) (@normalize_text excerpt_tables [c])
  = true
  /\ (length (@normalize_text excerpt_tables [c]) <= 1)%nat.
Proof.
  intros Hc.
  pose proof (tabulated_row
                (fun c => forallb (fun c' => normal_char c' && (c' <=? 255)%N)
                            (@normalize_text excerpt_tables [c])
                          && (length (@normalize_text excerpt_tables [c]) <=? 1)%nat) c) as Hrow.
  apply andb_true_iff in Hrow as [H1 H2]; [|vm_compute; reflexivity | exact Hc].
  apply Nat.leb_le in H2. auto.
Qed.

(** X16: for a text of code points up to U+00FF, with tables that have the
    rows of the excerpt there, the normalised text is not longer than the
    text, and each of its characters is alphanumeric and is its own lower
    case: no space, no punctuation, no capital letter. Its characters are
    code points up to U+00FF again. *)
Theorem normalize_text_normal `{unicode_tables} (s : str) :
  latin1_rows ->
  Forall tabulated s ->
  Forall (fun c => normal_char c = true) (normalize_text s)
  /\ (length (normalize_text s) <= length s)%nat
  /\ Forall tabulated (normalize_text s).
Proof.
  intros Hrows Hs. rewrite (normalize_text_latin1 s Hrows Hs). clear Hrows.
  induction Hs as [|c s Hc Hs (IH1 & IH2 & IH3)];
    [split; [constructor | split; [reflexivity | constructor]]|].
  change (c :: s) with ([c] ++ s). rewrite excerpt_normalize_app.
  destruct (excerpt_normalize_char c Hc) as [H1 H2].
  rewrite forallb_forall in H1. split; [|split].
  - apply Forall_app_2; [|exact IH1].
    apply Forall_forall. intros x Hx. apply list_elem_of_In, H1, andb_true_iff in Hx.
    apply Hx.
  - rewrite !length_app. change (length [c]) with 1%nat. lia.
  - apply Forall_app_2; [|exact IH3].
    apply Forall_forall. intros x Hx. apply list_elem_of_In, H1, andb_true_iff in Hx.
    apply N.leb_le, Hx.
Qed.

Section NormalisationExamples.

#[local] Existing Instance excerpt_tables.

Lemma normalize_text_idempotent_witness :
  normalize_text (lit "Product Name (W1)") = lit "productnamew1"
  /\ normalize_text (normalize_text (lit "Product Name (W1)"))
     = normalize_text (lit "Product Name (W1)").
Proof.
  split; [reflexivity|].
  apply (normalize_text_idempotent (lit "Product Name (W1)") excerpt_lower_case_stable).
  intros Hin. vm_compute in Hin.
  repeat (apply elem_of_cons in Hin as [Hin | Hin]; [discriminate|]).
  inversion Hin.
Defined.

(** Counterexample to C7: the one-character text U+0130. Its normalisation
    is U+0069 U+0307, and the normalisation of that is U+0069. *)
Lemma normalize_text_not_idempotent :
  normalize_text [dotted_I] = [105%N; 775%N]
  /\ normalize_text (normalize_text [dotted_I]) = [105%N]
  /\ normalize_text (normalize_text [dotted_I]) <> normalize_text [dotted_I].
Proof. vm_compute. repeat split. discriminate. Qed.

Lemma normalize_text_normal_witness :
  normalize_text (lit "LO(W) 1") = lit "low1"
  /\ Forall (fun c => normal_char c = true) (normalize_text (lit "LO(W) 1"))
  /\ (length (normalize_text (lit "LO(W) 1")) <= length (lit "LO(W) 1"))%nat
  /\ Forall tabulated (normalize_text (lit "LO(W) 1")).
Proof.
  split; [reflexivity|].
  apply (normalize_text_normal (lit "LO(W) 1") excerpt_latin1_rows).
  apply tabulated_by_forallb. reflexivity.
Defined.

End NormalisationExamples.


(** ** Dictionaries *)

Lemma dict_get_set {K V} `{EqDecision K} (d : dict K V) (k k' : K) (v : V) :
  dict_get (dict_set d k v) k' = if decide (k = k') then Some v else dict_get d k'.
Proof.
  induction d as [|[k0 v0] d IH]; simpl.
  - reflexivity.
  - destruct (decide (k0 = k)) as [->|Hne]; simpl.
    + destruct (decide (k = k')); reflexivity.
    + rewrite IH. destruct (decide (k0 = k')) as [->|]; [|reflexivity].
      destruct (decide (k = k')); [congruence | reflexivity].
Qed.

Lemma dict_set_elem {K V} `{EqDecision K} (f : K -> V) (d : dict K V) (k : K) :
  (forall k' v', (k', v') ∈ d -> v' = f k') ->
  forall k' v', (k', v') ∈ dict_set d k (f k) <-> (k', v') ∈ d \/ (k' = k /\ v' = f k).
Proof.
  induction d as [|[k0 v0] d IH]; intros Hinv k' v'; simpl.
  - rewrite list_elem_of_singleton. split.
    + intros [= -> ->]. right. split; reflexivity.
    + intros [H | [-> ->]]; [inversion H | reflexivity].
  - assert (v0 = f k0) as -> by (apply Hinv; left).
    destruct (decide (k0 = k)) as [->|Hne].
    + split; [intros H; left; exact H|].
      intros [H | [-> ->]]; [exact H | left].
    + rewrite !elem_of_cons, IH by (intros k1 v1 H1; apply Hinv; right; exact H1). tauto.
Qed.

Lemma dict_comprehension_elem {K V} `{EqDecision K} (f : K -> V) (l : list K) (k : K) (v : V) :
  (k, v) ∈ dict_comprehension f l <-> k ∈ l /\ v = f k.
Proof.
  unfold dict_comprehension.
  assert (forall d : dict K V,
             (forall k' v', (k', v') ∈ d -> v' = f k') ->
             (k, v) ∈ foldl (fun d k => dict_set d k (f k)) d l
             <-> (k, v) ∈ d \/ (k ∈ l /\ v = f k)) as Hgen.
  { induction l as [|k0 l IH]; intros d Hinv; simpl.
    - split; [auto | intros [H | [H _]]; [exact H | inversion H]].
    - rewrite IH.
      + rewrite (dict_set_elem f d k0 Hinv), elem_of_cons. split.
        * intros [[H | [-> ->]] | [H ->]]; auto.
        * intros [H | [[-> | H] ->]]; auto.
      + intros k' v' H. apply (dict_set_elem f d k0 Hinv) in H as [H | [-> ->]];
          [apply Hinv; exact H | reflexivity]. }
  rewrite Hgen by (intros k' v' H; inversion H).
  split; [intros [H | H]; [inversion H | exact H] | auto].
Qed.

(** ** Fuzzy matching *)

Lemma max_by_score_fold (x : str * Z) (rest : list (str * Z)) :
  let y := foldl (fun best y => if snd best <? snd y then y else best) x rest in
  y ∈ x :: rest /\ forall z, z ∈ x :: rest -> snd z <= snd y.
Proof.
  revert x; induction rest as [|a rest IH]; intros x; simpl.
  - split; [left|]. intros z Hz. apply list_elem_of_singleton in Hz as ->. lia.
  - destruct (IH (if snd x <? snd a then a else x)) as [Hin Hmax].
    split.
    + apply elem_of_cons in Hin as [-> | Hin].
      * destruct (snd x <? snd a); [right; left | left].
      * right. right. exact Hin.
    + intros z Hz.
      assert (snd x <= snd (if snd x <? snd a then a else x)
              /\ snd a <= snd (if snd x <? snd a then a else x)) as [Hx Ha]
        by (destruct (Z.ltb_spec (snd x) (snd a)); lia).
      pose proof (Hmax _ (list_elem_of_here _ _)) as Hfirst.
      apply elem_of_cons in Hz as [-> | Hz]; [lia|].
      apply elem_of_cons in Hz as [-> | Hz]; [lia|].
      apply Hmax. right. exact Hz.
Qed.

Lemma dict_set_elem_inv {K V} `{EqDecision K} (d : dict K V) (k k' : K) (v v' : V) :
  (k', v') ∈ dict_set d k v -> (k', v') ∈ d \/ (k' = k /\ v' = v).
Proof.
  induction d as [|[k0 v0] d IH]; simpl.
  - intros H. apply list_elem_of_singleton in H as [= -> ->]. auto.
  - destruct (decide (k0 = k)) as [->|Hne]; intros H;
      apply elem_of_cons in H as [[= -> ->] | H].
    + auto.
    + left. right. exact H.
    + left. left.
    + destruct (IH H) as [Hd | Hnew]; [left; right; exact Hd | auto].
Qed.

Lemma dict_keys_cons {K V} (k : K) (v : V) (d : dict K V) :
  dict_keys ((k, v) :: d) = k :: dict_keys d.
Proof. reflexivity. Qed.

Lemma dict_keys_set {K V} `{EqDecision K} (d : dict K V) (k k' : K) (v : V) :
  k' ∈ dict_keys (dict_set d k v) <-> k' ∈ dict_keys d \/ k' = k.
Proof.
  induction d as [|[k0 v0] d IH]; simpl dict_set.
  - rewrite dict_keys_cons, elem_of_cons. tauto.
  - destruct (decide (k0 = k)) as [->|Hne]; rewrite !dict_keys_cons, !elem_of_cons.
    + tauto.
    + rewrite IH. tauto.
Qed.

Lemma dict_keys_set_NoDup {K V} `{EqDecision K} (d : dict K V) (k : K) (v : V) :
  NoDup (dict_keys d) -> NoDup (dict_keys (dict_set d k v)).
Proof.
  induction d as [|[k0 v0] d IH]; simpl dict_set.
  - intros _. rewrite dict_keys_cons. apply NoDup_cons. split; [|constructor].
    intros H. inversion H.
  - rewrite dict_keys_cons. intros Hnd. apply NoDup_cons in Hnd as [Hk0 Hnd].
    destruct (decide (k0 = k)) as [->|Hne]; rewrite dict_keys_cons; apply NoDup_cons.
    + auto.
    + split; [|exact (IH Hnd)].
      intros Hin. apply (dict_keys_set d k k0 v) in Hin as [Hin | ->];
        [exact (Hk0 Hin) | congruence].
Qed.

Section FuzzyMatching.

Context `{tables : unicode_tables}.

Variable scorer : str -> str -> Z.
Hypothesis scorer_nonneg : forall query choice, 0 <= scorer query choice.

(** With a scorer that is never negative, [extractOne] finds a best choice
    in every list that is not empty. *)
Lemma extractOne_spec (query : str) (choices : list str) :
  choices <> [] ->
  exists best, best ∈ choices
    /\ extractOne scorer query choices = Some (best, scorer query best)
    /\ forall c, c ∈ choices -> scorer query c <= scorer query best.
Proof.
  intros Hne. unfold extractOne.
  assert (List.filter (fun cs : str * Z => 0 <=? snd cs)
            ((fun choice => (choice, scorer query choice)) <$> choices)
          = (fun choice => (choice, scorer query choice)) <$> choices) as ->.
  { clear Hne. induction choices as [|c cs IH]; [reflexivity|].
    rewrite fmap_cons. simpl.
    replace (0 <=? scorer query c) with true
      by (symmetry; apply Z.leb_le, scorer_nonneg).
    rewrite IH. reflexivity. }
  destruct choices as [|c0 cs]; [congruence|].
  rewrite fmap_cons. unfold max_by_score.
  destruct (max_by_score_fold (c0, scorer query c0)
              ((fun choice => (choice, scorer query choice)) <$> cs)) as [Hin Hmax].
  change ((c0, scorer query c0) :: ((fun choice => (choice, scorer query choice)) <$> cs))
    with ((fun choice => (choice, scorer query choice)) <$> (c0 :: cs)) in Hin, Hmax.
  apply list_elem_of_fmap in Hin as (best & Hbest & Hin).
  exists best. split; [exact Hin|]. split.
  - f_equal. exact Hbest.
  - intros c Hc. rewrite Hbest in Hmax.
    apply (Hmax (c, scorer query c)), list_elem_of_fmap. exists c. auto.
Qed.

Lemma first_column_of_spec (norm_columns : dict str str) (best_match : str) :
  (exists col, (col, best_match) ∈ norm_columns) ->
  exists col, first_column_of norm_columns best_match = Some col
              /\ (col, best_match) ∈ norm_columns.
Proof.
  unfold first_column_of.
  induction norm_columns as [|[k v] d IH]; intros [col Hcol]; [inversion Hcol|].
  simpl. destruct (bool_decide (v = best_match)) eqn:Hv.
  - apply bool_decide_eq_true in Hv as ->. exists k. split; [reflexivity | left].
  - apply bool_decide_eq_false in Hv.
    apply elem_of_cons in Hcol as [[= -> ->] | Hcol]; [congruence|].
    destruct IH as (col' & Hfind & Hin); [exists col; exact Hcol|].
    exists col'. split; [exact Hfind | right; exact Hin].
Qed.

(** One iteration of the loop sets the entry of its placeholder, and sets it
    as [match_entry_ok] says. *)
Lemma match_placeholder_spec (columns : list str) (threshold : Z) (mapping : mapping_t)
    (p : str) :
  columns <> [] ->
  exists e, match_placeholder scorer columns threshold mapping p
            = Some (dict_set mapping p e)
            /\ match_entry_ok scorer columns threshold p e.
Proof.
  intros Hne. unfold match_placeholder.
  set (norm_columns := dict_comprehension normalize_text columns).
  assert (forall c, c ∈ columns -> normalize_text c ∈ dict_values norm_columns) as Hval.
  { intros c Hc. apply list_elem_of_fmap. exists (c, normalize_text c).
    split; [reflexivity|]. apply dict_comprehension_elem. auto. }
  assert (dict_values norm_columns <> []) as Hvne.
  { destruct columns as [|c0 cs]; [congruence|].
    intros Hnil. pose proof (Hval c0 (list_elem_of_here _ _)) as H.
    rewrite Hnil in H. inversion H. }
  destruct (extractOne_spec (normalize_text p) _ Hvne) as (best_match & Hin & -> & Hmax).
  apply list_elem_of_fmap in Hin as ([col0 v0] & Hv0 & Hin0). simpl in Hv0. subst v0.
  destruct (first_column_of_spec norm_columns best_match) as (col & -> & Hcol);
    [exists col0; exact Hin0|].
  apply dict_comprehension_elem in Hcol as [Hcol Hnorm].
  apply dict_comprehension_elem in Hin0 as [Hcol0 Hnorm0].
  destruct (Z.leb_spec threshold (scorer (normalize_text p) best_match)) as [Hge | Hlt].
  - exists (Some col, scorer (normalize_text p) best_match). split; [reflexivity|].
    exists col. split; [exact Hcol|]. rewrite <- Hnorm. split.
    + intros c Hc. apply Hmax, Hval, Hc.
    + split; [intros; lia|]. intros _. exists col. auto.
  - exists (None, 0). split; [reflexivity|].
    exists col. split; [exact Hcol|]. rewrite <- Hnorm. split.
    + intros c Hc. apply Hmax, Hval, Hc.
    + split; [reflexivity | intros; lia].
Qed.

Lemma match_placeholders_loop_spec (columns : list str) (threshold : Z)
    (placeholders : list str) (mapping : mapping_t) :
  columns <> [] ->
  exists mapping',
    match_placeholders_loop scorer columns threshold mapping placeholders = Some mapping'
    /\ (forall p, p ∈ placeholders ->
          exists e, dict_get mapping' p = Some e
                    /\ match_entry_ok scorer columns threshold p e)
    /\ (forall p, p ∉ placeholders -> dict_get mapping' p = dict_get mapping p).
Proof.
  intros Hne. revert mapping; induction placeholders as [|p0 ps IH]; intros mapping; simpl.
  - exists mapping. split; [reflexivity|]. split; [|reflexivity].
    intros p Hp. inversion Hp.
  - destruct (match_placeholder_spec columns threshold mapping p0 Hne) as (e0 & -> & He0).
    destruct (IH (dict_set mapping p0 e0)) as (mapping' & Hloop & Hin & Hout).
    exists mapping'. split; [exact Hloop|]. split.
    + intros p Hp. destruct (decide (p ∈ ps)) as [Hps | Hps]; [exact (Hin p Hps)|].
      apply elem_of_cons in Hp as [-> | Hp]; [|contradiction].
      exists e0. rewrite (Hout p0 Hps), dict_get_set.
      destruct (decide (p0 = p0)); [auto | congruence].
    + intros p Hp. apply not_elem_of_cons in Hp as [Hne0 Hps].
      rewrite (Hout p Hps), dict_get_set.
      destruct (decide (p0 = p)); [congruence | reflexivity].
Qed.

(** C6: with at least one column and the threshold 85, every placeholder
    gets an entry. The texts that are scored are the lower case of the
    alphanumeric characters of the placeholder and of the columns. A column
    [best] has the highest score against the placeholder among the columns;
    when that score is below 85 the entry is [(None, 0)], otherwise it is
    [(c, score)] for a column [c] whose normalisation is that of [best]. *)
Theorem fuzzy_match_threshold (placeholders columns : list str) :
  columns <> [] ->
  exists mapping,
    fuzzy_match_placeholders scorer placeholders columns default_threshold = Some mapping
    /\ forall p, p ∈ placeholders ->
         let norm := fun text => str_lower (List.filter isalnum text) in
         exists best, best ∈ columns
           /\ (forall c, c ∈ columns -> scorer (norm p) (norm c) <= scorer (norm p) (norm best))
           /\ let score := scorer (norm p) (norm best) in
              (score < 85 -> dict_get mapping p = Some (None, 0))
              /\ (85 <= score ->
                  exists c, c ∈ columns /\ norm c = norm best
                            /\ dict_get mapping p = Some (Some c, score)).
Proof.
  intros Hne.
  destruct (match_placeholders_loop_spec columns default_threshold placeholders [] Hne)
    as (mapping & Hloop & Hin & _).
  exists mapping. split; [exact Hloop|].
  intros p Hp norm. destruct (Hin p Hp) as (e & Hget & best & Hbest & Hmax & Hlow & Hhigh).
  exists best. split; [exact Hbest|]. split; [exact Hmax|]. split.
  - intros Hlt. rewrite Hget, (Hlow Hlt). reflexivity.
  - intros Hge. destruct (Hhigh Hge) as (c & Hc & Hnorm & ->).
    exists c. split; [exact Hc|]. split; [exact Hnorm | exact Hget].
Qed.

(** C10: with a placeholder and no column, [fuzzy_match_placeholders] fails
    at the unpacking of the result of [extractOne]; with no placeholder it
    returns the empty mapping; with at least one column it returns a mapping
    that has an entry for every placeholder. *)
Theorem fuzzy_match_needs_a_column (threshold : Z) :
  (forall p ps, fuzzy_match_placeholders scorer (p :: ps) [] threshold = None)
  /\ (forall columns, fuzzy_match_placeholders scorer [] columns threshold = Some [])
  /\ (forall placeholders columns, columns <> [] ->
        exists mapping,
          fuzzy_match_placeholders scorer placeholders columns threshold = Some mapping
          /\ forall p, p ∈ placeholders -> is_Some (dict_get mapping p)).
Proof.
  split; [reflexivity|]. split; [reflexivity|].
  intros placeholders columns Hne.
  destruct (match_placeholders_loop_spec columns threshold placeholders [] Hne)
    as (mapping & Hloop & Hin & _).
  exists mapping. split; [exact Hloop|].
  intros p Hp. destruct (Hin p Hp) as (e & Hget & _). exists e. exact Hget.
Qed.

End FuzzyMatching.

Lemma exact_scorer_nonneg (a b : str) : 0 <= exact_scorer a b.
Proof. unfold exact_scorer. destruct (decide (a = b)); lia. Qed.


Section FuzzyExamples.

#[local] Existing Instance excerpt_tables.

Lemma fuzzy_match_threshold_witness :
  exists mapping,
    fuzzy_match_placeholders exact_scorer [lit "Product Name"; lit "Weight"]
      [lit "product_name"; lit "Code"] default_threshold = Some mapping
    /\ mapping = [(lit "Product Name", (Some (lit "product_name"), 100));
                  (lit "Weight", (None, 0))]
    /\ forall p, p ∈ [lit "Product Name"; lit "Weight"] ->
         let norm := fun text => str_lower (List.filter isalnum text) in
         exists best, best ∈ [lit "product_name"; lit "Code"]
           /\ (forall c, c ∈ [lit "product_name"; lit "Code"] ->
                 exact_scorer (norm p) (norm c) <= exact_scorer (norm p) (norm best))
           /\ let score := exact_scorer (norm p) (norm best) in
              (score < 85 -> dict_get mapping p = Some (None, 0))
              /\ (85 <= score ->
                  exists c, c ∈ [lit "product_name"; lit "Code"]
                            /\ norm c = norm best
                            /\ dict_get mapping p = Some (Some c, score)).
Proof.
  destruct (fuzzy_match_threshold exact_scorer exact_scorer_nonneg
              [lit "Product Name"; lit "Weight"] [lit "product_name"; lit "Code"])
    as (mapping & Hrun & Hspec); [discriminate|].
  exists mapping. split; [exact Hrun|]. split; [|exact Hspec].
  assert (fuzzy_match_placeholders exact_scorer [lit "Product Name"; lit "Weight"]
            [lit "product_name"; lit "Code"] default_threshold
          = Some [(lit "Product Name", (Some (lit "product_name"), 100));
                  (lit "Weight", (None, 0))]) as Hval by (vm_compute; reflexivity).
  rewrite Hval in Hrun. injection Hrun as <-. reflexivity.
Defined.

Lemma fuzzy_match_needs_a_column_witness :
  fuzzy_match_placeholders exact_scorer [lit "Name"] [] default_threshold = None
  /\ exists mapping,
       fuzzy_match_placeholders exact_scorer [lit "Name"] [lit "name"] default_threshold
       = Some mapping
       /\ forall p, p ∈ [lit "Name"] -> is_Some (dict_get mapping p).
Proof.
  destruct (fuzzy_match_needs_a_column exact_scorer exact_scorer_nonneg default_threshold)
    as (Hfail & _ & Htotal).
  split; [apply Hfail|]. apply Htotal. discriminate.
Defined.

End FuzzyExamples.

(** ** [fuzzy_match_placeholders] and the pipeline of [main] *)

Section FuzzyPipeline.

Context `{tables : unicode_tables}.

(** [extractOne] returns one of the choices, with its score. *)
Lemma extractOne_elem (scorer : str -> str -> Z) (query : str) (choices : list str)
    (best : str) (score : Z) :
  extractOne scorer query choices = Some (best, score) ->
  best ∈ choices /\ score = scorer query best.
Proof.
  unfold extractOne, max_by_score.
  destruct (List.filter _ _) as [|x rest] eqn:Hf; [discriminate|].
  intros [= Hbest].
  destruct (max_by_score_fold x rest) as [Hin _]. rewrite Hbest in Hin.
  rewrite <- Hf in Hin. apply list_elem_of_In, filter_In in Hin as [Hin _].
  apply list_elem_of_In, list_elem_of_fmap in Hin as (c & [= -> ->] & Hc). auto.
Qed.

(** The entry the loop writes for a placeholder is a function of its
    normalisation, and is well formed. *)
Lemma match_placeholder_by_norm (scorer : str -> str -> Z) (columns : list str)
    (threshold : Z) :
  exists F : str -> option (option str * Z),
    (forall mapping p,
        match_placeholder scorer columns threshold mapping p
        = dict_set mapping p <$> F (normalize_text p))
    /\ (forall np e, F np = Some e -> entry_well_formed columns threshold e).
Proof.
  set (norm_columns := dict_comprehension normalize_text columns).
  exists (fun np =>
            match extractOne scorer np (dict_values norm_columns) with
            | None => None
            | Some (best_match, score) =>
                Some (if threshold <=? score
                      then (Some (default [] (first_column_of norm_columns best_match)), score)
                      else (None, 0))
            end).
  assert (forall np best_match score,
             extractOne scorer np (dict_values norm_columns) = Some (best_match, score) ->
             exists col, first_column_of norm_columns best_match = Some col
                         /\ col ∈ columns) as Hcol.
  { intros np best_match score Hex. apply extractOne_elem in Hex as [Hin _].
    apply list_elem_of_fmap in Hin as ([col0 v0] & Hv0 & Hin0). simpl in Hv0. subst v0.
    destruct (first_column_of_spec norm_columns best_match) as (col & Hfind & Hin);
      [exists col0; exact Hin0|].
    exists col. split; [exact Hfind|].
    apply dict_comprehension_elem in Hin as [Hin _]. exact Hin. }
  split.
  - intros mapping p. unfold match_placeholder. fold norm_columns.
    destruct (extractOne scorer (normalize_text p) (dict_values norm_columns))
      as [[best_match score]|] eqn:Hex; [|reflexivity].
    destruct (Hcol _ _ _ Hex) as (col & -> & _).
    destruct (threshold <=? score); reflexivity.
  - intros np e. destruct (extractOne scorer np (dict_values norm_columns))
      as [[best_match score]|] eqn:Hex; [|discriminate].
    destruct (Hcol _ _ _ Hex) as (col & -> & Hin).
    destruct (Z.leb_spec threshold score); intros [= <-].
    + right. exists col. auto.
    + left. reflexivity.
Qed.

Lemma match_placeholders_loop_by_norm (scorer : str -> str -> Z) (columns : list str)
    (threshold : Z) (F : str -> option (option str * Z)) :
  (forall mapping p,
      match_placeholder scorer columns threshold mapping p
      = dict_set mapping p <$> F (normalize_text p)) ->
  forall placeholders mapping mapping',
    match_placeholders_loop scorer columns threshold mapping placeholders = Some mapping' ->
    (forall p, p ∈ placeholders ->
       is_Some (dict_get mapping' p) /\ dict_get mapping' p = F (normalize_text p))
    /\ (forall p, p ∉ placeholders -> dict_get mapping' p = dict_get mapping p)
    /\ (forall p e, (p, e) ∈ mapping' ->
          (p, e) ∈ mapping \/ (p ∈ placeholders /\ F (normalize_text p) = Some e))
    /\ (forall p, p ∈ dict_keys mapping' <-> p ∈ dict_keys mapping \/ p ∈ placeholders)
    /\ (NoDup (dict_keys mapping) -> NoDup (dict_keys mapping')).
Proof.
  intros HF. induction placeholders as [|p0 ps IH]; intros mapping mapping'; simpl.
  - intros [= <-]. split; [|split; [|split; [|split]]].
    + intros p Hp. inversion Hp.
    + intros p _. reflexivity.
    + intros p e H. left. exact H.
    + intros p. split; [auto | intros [H | H]; [exact H | inversion H]].
    + auto.
  - rewrite HF. destruct (F (normalize_text p0)) as [e0|] eqn:He0; [|discriminate].
    simpl. intros Hloop.
    destruct (IH _ _ Hloop) as (Hin & Hout & Helem & Hkeys & Hnd).
    split; [|split; [|split; [|split]]].
    + intros p Hp. destruct (decide (p ∈ ps)) as [Hps | Hps]; [exact (Hin p Hps)|].
      apply elem_of_cons in Hp as [-> | Hp]; [|contradiction].
      rewrite (Hout p0 Hps), dict_get_set, He0.
      destruct (decide (p0 = p0)); [|congruence]. split; [eexists|]; reflexivity.
    + intros p Hp. apply not_elem_of_cons in Hp as [Hne Hps].
      rewrite (Hout p Hps), dict_get_set.
      destruct (decide (p0 = p)); [congruence | reflexivity].
    + intros p e Hpe. destruct (Helem p e Hpe) as [Hset | [Hps HFp]].
      * apply dict_set_elem_inv in Hset as [Hm | [-> ->]]; [auto|].
        right. split; [left | exact He0].
      * right. split; [right; exact Hps | exact HFp].
    + intros p. rewrite Hkeys, dict_keys_set, elem_of_cons. tauto.
    + intros Hm. apply Hnd, dict_keys_set_NoDup, Hm.
Qed.

(** X17: the mapping [fuzzy_match_placeholders] returns has one entry for
    each placeholder and no other; and every entry is either [(None, 0)]
    or a column of the table with a score that reaches the threshold: the
    mapping never names a column that the table does not have. *)
Theorem fuzzy_match_entries_well_formed (scorer : str -> str -> Z)
    (placeholders columns : list str) (threshold : Z) (mapping : mapping_t) :
  fuzzy_match_placeholders scorer placeholders columns threshold = Some mapping ->
  NoDup (dict_keys mapping)
  /\ (forall p, p ∈ dict_keys mapping <-> p ∈ placeholders)
  /\ (forall p e, (p, e) ∈ mapping -> entry_well_formed columns threshold e).
Proof.
  intros Hrun. destruct (match_placeholder_by_norm scorer columns threshold) as (F & HF & Hwf).
  destruct (match_placeholders_loop_by_norm scorer columns threshold F HF _ _ _ Hrun)
    as (_ & _ & Helem & Hkeys & Hnd).
  split; [apply Hnd; constructor|]. split.
  - intros p. rewrite Hkeys. split; [intros [H | H]; [inversion H | exact H] | auto].
  - intros p e Hpe. destruct (Helem p e Hpe) as [H | [_ HFp]]; [inversion H|].
    exact (Hwf _ _ HFp).
Qed.

(** X18: placeholders with the same normalisation get the same entry: two
    spellings of a name that differ in case, spaces or punctuation are
    mapped to the same column with the same score, or both to none. *)
Theorem fuzzy_match_by_normalisation (scorer : str -> str -> Z)
    (placeholders columns : list str) (threshold : Z) (mapping : mapping_t) (p1 p2 : str) :
  fuzzy_match_placeholders scorer placeholders columns threshold = Some mapping ->
  p1 ∈ placeholders -> p2 ∈ placeholders ->
  normalize_text p1 = normalize_text p2 ->
  is_Some (dict_get mapping p1) /\ dict_get mapping p1 = dict_get mapping p2.
Proof.
  intros Hrun H1 H2 Hnorm.
  destruct (match_placeholder_by_norm scorer columns threshold) as (F & HF & _).
  destruct (match_placeholders_loop_by_norm scorer columns threshold F HF _ _ _ Hrun)
    as (Hin & _).
  destruct (Hin p1 H1) as [Hsome E1]. destruct (Hin p2 H2) as [_ E2].
  split; [exact Hsome|]. rewrite E1, E2, Hnorm. reflexivity.
Qed.


(** X19: the pipeline of [main]. When the mapping comes from
    [fuzzy_match_placeholders] on the columns of the table, the template
    has plain texts, and every row has a plain value for every column of
    the table, [generate_documents] returns a result for each row:
    [data[column]] is never missing, whatever the placeholders, the
    threshold and the scorer are. *)
Theorem generate_documents_after_fuzzy_match (scorer : str -> str -> Z)
    (placeholders : list str) (threshold : Z) (df : dataframe) (template : document)
    (mapping : mapping_t) :
  fuzzy_match_placeholders scorer placeholders (columns df) threshold = Some mapping ->
  plain_document template ->
  (forall row c, row ∈ rows df -> c ∈ columns df ->
     exists v, dict_get row c = Some v /\ plain v) ->
  exists results,
    generate_documents df template mapping = Some results
    /\ length results = length (rows df).
Proof.
  intros Hrun Htemplate Hrows.
  destruct (match_placeholder_by_norm scorer (columns df) threshold) as (F & HF & Hwf).
  destruct (match_placeholders_loop_by_norm scorer (columns df) threshold F HF _ _ _ Hrun)
    as (_ & _ & Helem & _).
  assert (forall t c sc, (t, (Some c, sc)) ∈ mapping -> c ∈ columns df) as Hcols.
  { intros t c sc Hin. destruct (Helem _ _ Hin) as [Hnil | [_ HFt]]; [inversion Hnil|].
    destruct (Hwf _ _ HFt) as [[=] | (col & Hcol & Hincol & _)].
    simpl in Hcol. injection Hcol as <-. exact Hincol. }
  destruct (generate_rows_total df template mapping (rows df) Htemplate) as (results & Hres).
  { intros row Hrow. split.
    - intros t c sc Hin _. destruct (Hrows row c Hrow (Hcols _ _ _ Hin)) as (v & Hv & _).
      exists v. exact Hv.
    - intros t c sc v Hin Hget.
      destruct (Hrows row c Hrow (Hcols _ _ _ Hin)) as (v' & Hv & Hp). congruence. }
  exists results. split; [exact Hres|].
  exact (proj1 (generate_rows_length df template mapping (rows df) results Hres)).
Qed.

End FuzzyPipeline.

Section PipelineExamples.

#[local] Existing Instance excerpt_tables.

Lemma fuzzy_match_entries_well_formed_witness :
  exists mapping,
    fuzzy_match_placeholders exact_scorer
      [lit "Product Name"; lit "Weight"; lit "Product Name"]
      [lit "product_name"; lit "Code"] default_threshold = Some mapping
    /\ NoDup (dict_keys mapping)
    /\ (forall p, p ∈ dict_keys mapping
                  <-> p ∈ [lit "Product Name"; lit "Weight"; lit "Product Name"])
    /\ (forall p e, (p, e) ∈ mapping ->
          entry_well_formed [lit "product_name"; lit "Code"] default_threshold e).
Proof.
  destruct (fuzzy_match_placeholders exact_scorer
              [lit "Product Name"; lit "Weight"; lit "Product Name"]
              [lit "product_name"; lit "Code"] default_threshold) as [mapping|] eqn:Hrun;
    [|vm_compute in Hrun; discriminate].
  exists mapping. split; [reflexivity|].
  exact (fuzzy_match_entries_well_formed exact_scorer _ _ _ mapping Hrun).
Defined.

Lemma fuzzy_match_by_normalisation_witness :
  exists mapping,
    fuzzy_match_placeholders exact_scorer [lit "Product Name"; lit "product-name"]
      [lit "product_name"; lit "Code"] default_threshold = Some mapping
    /\ dict_get mapping (lit "Product Name") = Some (Some (lit "product_name"), 100)
    /\ dict_get mapping (lit "Product Name") = dict_get mapping (lit "product-name").
Proof.
  destruct (fuzzy_match_placeholders exact_scorer [lit "Product Name"; lit "product-name"]
              [lit "product_name"; lit "Code"] default_threshold) as [mapping|] eqn:Hrun;
    [|vm_compute in Hrun; discriminate].
  exists mapping. split; [reflexivity|]. split.
  - vm_compute in Hrun. injection Hrun as <-. vm_compute. reflexivity.
  - apply (fuzzy_match_by_normalisation exact_scorer _ _ _ mapping _ _ Hrun).
    + left.
    + right. left.
    + vm_compute. reflexivity.
Defined.

Lemma generate_documents_after_fuzzy_match_witness :
  let df := DataFrame [lit "product_name"; lit "Code"]
              [[(lit "product_name", lit "Lamp"); (lit "Code", lit "L1")];
               [(lit "product_name", lit "Spot"); (lit "Code", lit "S2")]] in
  let template := body_only [plain_run "{{Product Name}} ({{code}}) {{Other}}"] in
  exists mapping results,
    fuzzy_match_placeholders exact_scorer
      (elements (extract_placeholders template)) (columns df) default_threshold = Some mapping
    /\ generate_documents df template mapping = Some results
    /\ length results = length (rows df)
    /\ (paragraph_text <$> (results ≫= fun r => store (output r)))
       = [lit "Lamp (L1) {{Other}}"; lit "Spot (S2) {{Other}}"].
Proof.
  intros df template.
  destruct (fuzzy_match_placeholders exact_scorer
              (elements (extract_placeholders template)) (columns df) default_threshold)
    as [mapping|] eqn:Hrun; [|vm_compute in Hrun; discriminate].
  exists mapping.
  destruct (generate_documents_after_fuzzy_match exact_scorer _ _ df template mapping Hrun)
    as (results & Hres & Hlen).
  - apply plain_document_by_forallb. reflexivity.
  - intros row c Hrow Hc. vm_compute in Hrow, Hc.
    repeat (apply elem_of_cons in Hrow as [-> | Hrow];
            [repeat (apply elem_of_cons in Hc as [-> | Hc];
                     [eexists; split; reflexivity|]);
             inversion Hc|]).
    inversion Hrow.
  - exists results. split; [reflexivity|]. split; [exact Hres|]. split; [exact Hlen|].
    vm_compute in Hrun. injection Hrun as <-.
    vm_compute in Hres. injection Hres as <-. vm_compute. reflexivity.
Defined.

End PipelineExamples.

(** ** [sanitize_filename] and the file names of [main] *)

Lemma lit_injective (s1 s2 : string) : lit s1 = lit s2 -> s1 = s2.
Proof.
  unfold lit. intros H.
  rewrite <- (string_of_list_ascii_of_string s1), <- (string_of_list_ascii_of_string s2).
  f_equal. revert H. generalize (list_ascii_of_string s1) (list_ascii_of_string s2).
  intros l1; induction l1 as [|a l1 IH]; intros [|b l2]; simpl; try discriminate;
    [reflexivity|].
  intros [= Hab H]. f_equal; [|apply IH; exact H].
  rewrite <- (ascii_N_embedding a), <- (ascii_N_embedding b), Hab. reflexivity.
Qed.

Lemma str_of_nat_injective (n m : nat) : str_of_nat n = str_of_nat m -> n = m.
Proof.
  unfold str_of_nat. intros H. apply lit_injective in H.
  apply DecimalNat.Unsigned.to_uint_inj.
  assert (Some (Nat.to_uint n) = Some (Nat.to_uint m)) as [= Heq]
    by (rewrite <- !NilEmpty.usu, H; reflexivity).
  exact Heq.
Qed.

Lemma str_of_nat_digits (n : nat) : Forall (fun c => is_digit c = true) (str_of_nat n).
Proof.
  unfold str_of_nat. generalize (Nat.to_uint n) as d.
  induction d; simpl; try constructor; try reflexivity; assumption.
Qed.

(** A stretch of digits before a character that is not a digit is
    determined by the text. *)
Lemma digits_then_other (l1 l2 r1 r2 : str) (c : char) :
  Forall (fun c => is_digit c = true) l1 ->
  Forall (fun c => is_digit c = true) l2 ->
  is_digit c = false ->
  l1 ++ c :: r1 = l2 ++ c :: r2 -> l1 = l2.
Proof.
  intros H1; revert l2; induction H1 as [|a l1 Ha _ IH]; intros l2 H2 Hc Heq.
  - destruct H2 as [|b l2 Hb _]; [reflexivity|].
    simpl in Heq. injection Heq as -> _. congruence.
  - destruct H2 as [|b l2 Hb H2].
    + simpl in Heq. injection Heq as -> _. congruence.
    + simpl in Heq. injection Heq as -> Heq. f_equal. apply (IH l2 H2 Hc Heq).
Qed.

Lemma digit_tabulated (c : char) : is_digit c = true -> tabulated c.
Proof.
  unfold is_digit, in_range, tabulated. rewrite andb_true_iff, !N.leb_le. lia.
Qed.

Lemma digit_excerpt_alnum (c : char) : is_digit c = true -> excerpt_isalnum c = true.
Proof. unfold excerpt_isalnum, is_digit. intros ->. reflexivity. Qed.

Section FileNames.

Context `{tables : unicode_tables}.

Lemma sub_sanitize_map (prev : option char) (s : str) :
  sub_matches sanitize_pattern [underscore] prev 0 s
  = (fun c => if unsafe_char c then underscore else c) <$> s.
Proof.
  revert prev; induction s as [|c t IH]; intros prev; [reflexivity|].
  rewrite fmap_cons. simpl. unfold sanitize_pattern at 1, m_char, m_end.
  destruct (unsafe_char c); simpl; rewrite IH; reflexivity.
Qed.

Lemma underscore_safe : unsafe_char underscore = false.
Proof.
  unfold unsafe_char, word_char. rewrite N.eqb_refl, !orb_true_r. reflexivity.
Qed.

Lemma full_stop_safe : unsafe_char full_stop = false.
Proof. unfold unsafe_char. rewrite N.eqb_refl, !orb_true_r. reflexivity. Qed.

Lemma alnum_safe (c : char) : isalnum c = true -> unsafe_char c = false.
Proof. unfold unsafe_char, word_char. intros ->. reflexivity. Qed.

Lemma sanitize_filename_safe (name : str) :
  Forall (fun c => unsafe_char c = false) (sanitize_filename name).
Proof.
  unfold sanitize_filename. rewrite sub_sanitize_map. apply Forall_fmap, Forall_forall.
  intros c _. simpl. destruct (unsafe_char c) eqn:Hc; [exact underscore_safe | exact Hc].
Qed.

Lemma sanitize_filename_of_safe (name : str) :
  Forall (fun c => unsafe_char c = false) name -> sanitize_filename name = name.
Proof.
  unfold sanitize_filename. rewrite sub_sanitize_map.
  induction 1 as [|c t Hc _ IH]; [reflexivity|].
  rewrite fmap_cons, IH, Hc. reflexivity.
Qed.

Lemma sanitize_filename_length (name : str) :
  length (sanitize_filename name) = length name.
Proof. unfold sanitize_filename. rewrite sub_sanitize_map. apply length_fmap. Qed.

(** X11: [sanitize_filename] keeps the length of the name; a character
    that is alphanumeric, a hyphen, an underscore or a full stop stays where
    it is, and every other character becomes an underscore. *)
Theorem sanitize_filename_char_by_char (name : str) :
  length (sanitize_filename name) = length name
  /\ forall i c, name !! i = Some c ->
       sanitize_filename name !! i
       = Some (if isalnum c || (c =? hyphen)%N || (c =? underscore)%N || (c =? full_stop)%N
               then c else underscore).
Proof.
  split; [apply sanitize_filename_length|].
  unfold sanitize_filename. rewrite sub_sanitize_map.
  intros i c Hi.
  pose proof (list_lookup_fmap (fun c => if unsafe_char c then underscore else c) name i)
    as Hmap.
  etrans; [exact Hmap|]. apply fmap_Some. exists c. split; [exact Hi|].
  unfold unsafe_char, word_char.
  destruct (isalnum c), (c =? hyphen)%N, (c =? underscore)%N, (c =? full_stop)%N; reflexivity.
Qed.

(** X12: the result of [sanitize_filename] holds none of the characters the
    pattern replaces; sanitising is idempotent, and it returns the name
    unchanged exactly when the name holds none of those characters. *)
Theorem sanitize_filename_idempotent (name : str) :
  Forall (fun c => unsafe_char c = false) (sanitize_filename name)
  /\ sanitize_filename (sanitize_filename name) = sanitize_filename name
  /\ (sanitize_filename name = name <-> Forall (fun c => unsafe_char c = false) name).
Proof.
  split; [apply sanitize_filename_safe|].
  split; [apply sanitize_filename_of_safe, sanitize_filename_safe|].
  split; [|apply sanitize_filename_of_safe].
  intros H. rewrite <- H. apply sanitize_filename_safe.
Qed.

Lemma latin1_safe (s : str) :
  latin1_rows ->
  forallb (fun c => (c <=? 255)%N
                    && (excerpt_isalnum c || (c =? underscore)%N || (c =? full_stop)%N)) s
  = true ->
  Forall (fun c => unsafe_char c = false) s.
Proof.
  intros [Hal _] Hs. apply Forall_forall. intros c Hc. rewrite forallb_forall in Hs.
  apply list_elem_of_In, Hs, andb_true_iff in Hc as [Htab Hc]. apply N.leb_le in Htab.
  unfold unsafe_char, word_char. rewrite (Hal c Htab).
  destruct (excerpt_isalnum c), (c =? underscore)%N, (c =? full_stop)%N, (c =? hyphen)%N;
    try reflexivity; discriminate.
Qed.

(** X13: with tables that have the rows of the excerpt for Basic Latin, the
    name of a document in the ZIP file holds only alphanumeric characters,
    hyphens, underscores and full stops, whatever the row holds: no path
    separator and no space. *)
Theorem zip_filename_safe (row : dict str str) (idx : nat) :
  latin1_rows ->
  Forall (fun c => unsafe_char c = false) (zip_filename row idx).
Proof.
  intros Hrows. unfold zip_filename. repeat apply Forall_app_2.
  - apply sanitize_filename_safe.
  - apply (latin1_safe _ Hrows). reflexivity.
  - apply sanitize_filename_safe.
  - apply (latin1_safe _ Hrows). reflexivity.
  - eapply Forall_impl; [apply str_of_nat_digits|]. intros c Hc. apply alnum_safe.
    rewrite (proj1 Hrows c (digit_tabulated c Hc)). exact (digit_excerpt_alnum c Hc).
  - apply (latin1_safe _ Hrows). reflexivity.
Qed.

Lemma zip_filename_number (row1 row2 : dict str str) (i j : nat) :
  zip_filename row1 i = zip_filename row2 j -> i = j.
Proof.
  unfold zip_filename.
  set (n1 := sanitize_filename (row_get row1 _ _)).
  set (c1 := sanitize_filename (row_get row1 _ _)).
  set (n2 := sanitize_filename (row_get row2 _ _)).
  set (c2 := sanitize_filename (row_get row2 _ _)).
  intros H. apply (f_equal (@rev char)) in H.
  rewrite !rev_app_distr, <- !app_assoc in H.
  apply app_inv_head in H.
  change (rev (lit "_row_")) with (underscore :: rev (lit "_row")) in H.
  simpl app in H.
  apply digits_then_other in H.
  - apply (f_equal (@rev char)) in H. rewrite !rev_involutive in H.
    apply str_of_nat_injective in H. lia.
  - apply Forall_rev, str_of_nat_digits.
  - apply Forall_rev, str_of_nat_digits.
  - reflexivity.
Qed.

(** X14: the names in the ZIP file of two rows with different numbers are
    different, whatever the two rows hold. *)
Theorem zip_filename_unique (row1 row2 : dict str str) (i j : nat) :
  i <> j -> zip_filename row1 i <> zip_filename row2 j.
Proof. intros Hij H. apply Hij, (zip_filename_number row1 row2 i j H). Qed.

(** X15: the name shown in the report of a row is the name of its document
    in the ZIP file exactly when the row has both a [Product Name] and a
    [Product Code]; the two places use different texts for a missing
    one. *)
Theorem report_filename_matches_zip_iff (row : dict str str) (idx : nat) :
  report_filename row idx = zip_filename row idx
  <-> is_Some (dict_get row (lit "Product Name"))
      /\ is_Some (dict_get row (lit "Product Code")).
Proof.
  assert (length (lit "unknown") = 7%nat) as Hu by reflexivity.
  assert (length (lit "Not found") = 9%nat) as Hn by reflexivity.
  unfold report_filename, zip_filename, row_get.
  destruct (dict_get row (lit "Product Name")) as [name|];
    destruct (dict_get row (lit "Product Code")) as [code|]; simpl default.
  - split; [intros _; split; eexists; reflexivity | reflexivity].
  - split; [|intros [_ [x Hx]]; discriminate].
    intros H. apply (f_equal length) in H.
    rewrite !length_app, !sanitize_filename_length, Hu, Hn in H. lia.
  - split; [|intros [[x Hx] _]; discriminate].
    intros H. apply (f_equal length) in H.
    rewrite !length_app, !sanitize_filename_length, Hu, Hn in H. lia.
  - split; [|intros [[x Hx] _]; discriminate].
    intros H. apply (f_equal length) in H.
    rewrite !length_app, !sanitize_filename_length, Hu, Hn in H. lia.
Qed.

End FileNames.

Section FileNameExamples.

#[local] Existing Instance excerpt_tables.

Lemma zip_filename_safe_witness :
  zip_filename [(lit "Product Name", lit "A/B lamp"); (lit "Product Code", lit "L-1.5")] 0
  = lit "A_B_lamp_L-1.5_row_1.docx"
  /\ Forall (fun c => unsafe_char c = false)
       (zip_filename [(lit "Product Name", lit "A/B lamp"); (lit "Product Code", lit "L-1.5")]
          0).
Proof.
  split; [vm_compute; reflexivity|].
  apply (zip_filename_safe
           [(lit "Product Name", lit "A/B lamp"); (lit "Product Code", lit "L-1.5")] 0).
  exact excerpt_latin1_rows.
Defined.

Lemma zip_filename_unique_witness :
  zip_filename [(lit "Product Name", lit "A"); (lit "Product Code", lit "B_row_2.docx")] 0
  <> zip_filename [(lit "Product Name", lit "A"); (lit "Product Code", lit "B")] 1.
Proof.
  apply (zip_filename_unique
           [(lit "Product Name", lit "A"); (lit "Product Code", lit "B_row_2.docx")]
           [(lit "Product Name", lit "A"); (lit "Product Code", lit "B")] 0 1).
  lia.
Defined.

(** A row without a product code: the two names differ. *)
Lemma report_filename_differs :
  zip_filename [(lit "Product Name", lit "Lamp")] 0 = lit "Lamp_unknown_row_1.docx"
  /\ report_filename [(lit "Product Name", lit "Lamp")] 0 = lit "Lamp_Not_found_row_1.docx".
Proof. split; vm_compute; reflexivity. Qed.

End FileNameExamples.
